(** * The resolution-and-evaluation engine of the template filler

    A shallow embedding of [src/lib/evaluator.js]: the helpers
    ([parseList], [canon], [findCol], [toNum], [uniqNums]), the table helpers
    ([filterTableByIds], [shapeTagsInfo], [dedupeByTagId]), the resolver
    ([getTagsAndClausesByTemplateName]), the two evaluators
    ([evaluateTagsBuildMode], [evaluateClauses]) and the question scheduler
    ([returnNextTagQuestions]), followed by the properties the specification
    states about them. *)

From Stdlib Require Import ZArith QArith Qcanon Ascii String List Sorted Permutation Lia.
From stdpp Require Import base decidable option numbers list sorting countable gmap fin_maps strings.

Set Warnings "-clear-no-such-hyp".

Local Open Scope Z_scope.
Local Open Scope string_scope.
Local Open Scope list_scope.

(** ** JavaScript numbers

    A JavaScript number is [NaN], one of the two infinities, or a finite
    double.  Every finite double is a rational, so the finite numbers are
    embedded in the canonical rationals [Qc]: equality, the sign of a
    difference and [Number.isFinite] are those of the doubles.  (The two zeros
    are one number here; [Set], [Map] and property keys do not tell them
    apart either.) *)
Inductive num : Type :=
  | NaN
  | NegInf
  | Fin (q : Qc)
  | PosInf.

Definition Int (z : Z) : num := Fin (Qc_of_Z z).

Global Instance num_eq_dec : EqDecision num.
Proof. solve_decision. Defined.

Definition num_to_sum (n : num) : unit + (unit + (Qc + unit)) :=
  match n with
  | NaN => inl ()
  | NegInf => inr (inl ())
  | Fin q => inr (inr (inl q))
  | PosInf => inr (inr (inr ()))
  end.

Definition num_of_sum (s : unit + (unit + (Qc + unit))) : num :=
  match s with
  | inl _ => NaN
  | inr (inl _) => NegInf
  | inr (inr (inl q)) => Fin q
  | inr (inr (inr _)) => PosInf
  end.

Global Instance num_countable : Countable num.
Proof.
  refine (inj_countable' num_to_sum num_of_sum _).
  intros []; reflexivity.
Defined.

(** [Number.isFinite] *)
Definition isFinite (n : num) : bool :=
  match n with Fin _ => true | _ => false end.

(** [a - b] on numbers. *)
Definition num_sub (a b : num) : num :=
  match a, b with
  | NaN, _ | _, NaN => NaN
  | PosInf, PosInf | NegInf, NegInf => NaN
  | PosInf, _ => PosInf
  | NegInf, _ => NegInf
  | Fin _, PosInf => NegInf
  | Fin _, NegInf => PosInf
  | Fin x, Fin y => Fin (x - y)%Qc
  end.

(** [n > 0], false of [NaN]. *)
Definition num_pos (n : num) : bool :=
  match n with
  | PosInf => true
  | Fin q => bool_decide (0 < q)%Qc
  | _ => false
  end.

(** Truthiness of a number: everything but [0] and [NaN]. *)
Definition num_truthy (n : num) : bool :=
  match n with
  | NaN => false
  | Fin q => bool_decide (q ≠ 0%Qc)
  | _ => true
  end.

(** [a || b] on numbers. *)
Definition num_or (a b : num) : num := if num_truthy a then a else b.

(** The order of the numbers that are not [NaN]. *)
Definition num_lt (a b : num) : Prop :=
  match a, b with
  | NaN, _ | _, NaN => False
  | _, NegInf => False
  | NegInf, _ => True
  | PosInf, _ => False
  | Fin _, PosInf => True
  | Fin x, Fin y => (x < y)%Qc
  end.

Definition num_le (a b : num) : Prop := a = b ∨ num_lt a b.

(** ** JavaScript strings

    Strings are those of the standard library; the white space of [\s] and
    of [trim], and the letters changed by [toLowerCase], are the ASCII ones. *)
Definition is_ws (a : ascii) : bool :=
  let n := nat_of_ascii a in
  ((9 <=? n)%nat && (n <=? 13)%nat) || (n =? 32)%nat.

Definition lower (a : ascii) : ascii :=
  let n := nat_of_ascii a in
  if ((65 <=? n)%nat && (n <=? 90)%nat)%bool then ascii_of_nat (n + 32) else a.

Fixpoint toLowerCase (s : string) : string :=
  match s with
  | EmptyString => EmptyString
  | String a s' => String (lower a) (toLowerCase s')
  end.

Fixpoint trimStart (s : string) : string :=
  match s with
  | String a s' => if is_ws a then trimStart s' else s
  | EmptyString => EmptyString
  end.

(** Removes the white space at the end: a white-space character stays only
    when something that stays follows it. *)
Fixpoint trimEnd (s : string) : string :=
  match s with
  | EmptyString => EmptyString
  | String a s' =>
      match trimEnd s' with
      | EmptyString => if is_ws a then EmptyString else String a EmptyString
      | t => String a t
      end
  end.

Definition trim (s : string) : string := trimEnd (trimStart s).

(** [s.replace(/\s+/g, " ")]: the flag tells that the character before was
    white space, whose run has been replaced already. *)
Fixpoint collapse_go (in_run : bool) (s : string) : string :=
  match s with
  | EmptyString => EmptyString
  | String a s' =>
      if is_ws a
      then (if in_run then collapse_go true s' else String " " (collapse_go true s'))
      else String a (collapse_go false s')
  end.

Definition collapse_ws (s : string) : string := collapse_go false s.

(** [s.replace(/_/g, " ")] *)
Fixpoint underscores_to_spaces (s : string) : string :=
  match s with
  | EmptyString => EmptyString
  | String a s' =>
      String (if Ascii.eqb a "_" then " "%char else a) (underscores_to_spaces s')
  end.

(** [s.split(/[,|;]+/)]: a run of separators ends a piece; the piece before
    the first run and the piece after the last one are there even when
    empty. *)
Definition is_sep (a : ascii) : bool :=
  Ascii.eqb a "," || Ascii.eqb a "|" || Ascii.eqb a ";".

Fixpoint split_go (in_run : bool) (cur : string) (s : string) : list string :=
  match s with
  | EmptyString => [String.rev cur]
  | String a s' =>
      if is_sep a
      then (if in_run then split_go true cur s'
            else String.rev cur :: split_go true EmptyString s')
      else split_go false (String a cur) s'
  end.

Definition split_SPLIT_RE (s : string) : list string := split_go false EmptyString s.

(** The character of code 34, the double quote. *)
Definition dquote : ascii := ascii_of_nat 34.

(** [filter(Boolean)] on strings keeps the non-empty ones. *)
Definition nonempty (s : string) : bool :=
  match s with EmptyString => false | _ => true end.

(** ** Values of table cells

    A cell of a table, a template name or a raw answer is a primitive
    JavaScript value. *)
Inductive cell : Type :=
  | Undefined
  | Null
  | Bool (b : bool)
  | Num (n : num)
  | Str (s : string).

Global Instance cell_eq_dec : EqDecision cell.
Proof. solve_decision. Defined.

(** A row is an array of cells, a table an array of rows whose first row is
    the header; an argument that may be [null] or [undefined] is an option. *)
Abbreviation row := (list cell).
Abbreviation table := (list row).

(** [r[i]]: [undefined] outside the array, in particular at index [-1]. *)
Definition at_index (r : row) (i : Z) : cell :=
  if (i <? 0)%Z then Undefined else nth (Z.to_nat i) r Undefined.

(** The conversions between strings and numbers are those of the JavaScript
    engine, [Number(s)] on a string and [String(n)] on a number; the engine
    is a parameter of the development. *)
Class Runtime : Type := {
  StringToNumber : string → num;
  NumberToString : num → string
}.

Section Engine.
Context {rt : Runtime}.

(** [String(v)] *)
Definition ToString (v : cell) : string :=
  match v with
  | Undefined => "undefined"
  | Null => "null"
  | Bool true => "true"
  | Bool false => "false"
  | Num n => NumberToString n
  | Str s => s
  end.

(** [Number(v)] *)
Definition Number (v : cell) : num :=
  match v with
  | Undefined => NaN
  | Null => Int 0
  | Bool true => Int 1
  | Bool false => Int 0
  | Num n => n
  | Str s => StringToNumber s
  end.

(** Truthiness of a value. *)
Definition truthy (v : cell) : bool :=
  match v with
  | Undefined | Null => false
  | Bool b => b
  | Num n => num_truthy n
  | Str s => nonempty s
  end.

(** [v || d] and [v ?? d] *)
Definition or_else (v d : cell) : cell := if truthy v then v else d.

Definition nullish (v d : cell) : cell :=
  match v with Undefined | Null => d | _ => v end.

(** *** Small helpers *)

Definition parseList (c : cell) : list string :=
  match c with
  | Undefined | Null => []
  | _ => List.filter nonempty (map trim (split_SPLIT_RE (ToString c)))
  end.

Definition canon (s : cell) : string :=
  toLowerCase (underscores_to_spaces (collapse_ws (trim (ToString (or_else s (Str "")))))).

(** The patterns [findCol] is called with are words separated by [\s*]: a
    pattern is the list of its words, in lower case.  [match_word w h] is
    what is left of [h] after [w], matched without regard to case. *)
Fixpoint match_word (w h : string) : option string :=
  match w, h with
  | EmptyString, _ => Some h
  | String a w', String b h' =>
      if Ascii.eqb (lower a) (lower b) then match_word w' h' else None
  | String _ _, EmptyString => None
  end.

Fixpoint match_words (ws : list string) (h : string) : bool :=
  match ws with
  | [] => negb (nonempty h)
  | w :: ws' =>
      match match_word w (trimStart h) with
      | Some h' => match_words ws' h'
      | None => false
      end
  end.

(** [new RegExp(`^${namePattern}$`, "i").test(h)] *)
Definition rx_test (namePattern : list string) (h : string) : bool :=
  match namePattern with
  | [] => negb (nonempty h)
  | w :: ws =>
      match match_word w h with
      | Some h' => match_words ws h'
      | None => false
      end
  end.

Fixpoint findCol_from (i : Z) (headers : row) (namePattern : list string) : Z :=
  match headers with
  | [] => -1
  | c :: headers' =>
      let h := trim (collapse_ws (underscores_to_spaces (ToString (nullish c (Str ""))))) in
      if rx_test namePattern h then i else findCol_from (i + 1) headers' namePattern
  end.

Definition findCol (headers : row) (namePattern : list string) : Z :=
  findCol_from 0 headers namePattern.

(** [findCol(head, p) === -1 ? 0 : findCol(head, p)] *)
Definition findCol_or_first (headers : row) (namePattern : list string) : Z :=
  if (findCol headers namePattern =? -1)%Z then 0 else findCol headers namePattern.

Definition toNum (v : cell) : cell :=
  let n := Number v in
  if isFinite n then Num n else Null.

(** [Array.from(new Set(arr))]: the first occurrence of each value, in
    order. *)
Fixpoint SetFrom (l : list num) : list num :=
  match l with
  | [] => []
  | x :: l' => x :: filter (λ y, y ≠ x) (SetFrom l')
  end.

Definition uniqNums (arr : list cell) : list num :=
  filter (λ n, isFinite n = true) (SetFrom (map Number arr)).

(** *** Common table helpers *)

Definition filterTableByIds (aoa : option table) (ids : option (list cell)) : table :=
  match aoa with
  | None | Some [] => []
  | Some (head :: rows) =>
      match ids with
      | None | Some [] => [head]
      | Some ids =>
          let set := SetFrom (map Number ids) in
          head :: filter (λ r, Number (at_index r 0) ∈ set) rows
      end
  end.

(** Shaped tag rows, as the user interface needs them. *)
Record tagInfo : Type := {
  Tag_ID : cell;
  Tag_Category : cell;
  Priority : cell;
  Question : cell;
  Entry_Type : cell;
  Entry_Category : cell;
  Helper_Text : cell
}.

Definition shapeTagsInfo (tagsAoA : option table) : list tagInfo :=
  match tagsAoA with
  | None | Some [] => []
  | Some (head :: rows) =>
      let iId := findCol_or_first head ["tag"; "id"] in
      let iCat := findCol head ["tag"; "category"] in
      let iPri := findCol head ["priority"] in
      let iQue := findCol head ["question"] in
      let iType := findCol head ["entry"; "type"] in
      let iEC := findCol head ["entry"; "category"] in
      let iHelp := findCol head ["helper"; "text"] in
      map (λ r,
        {| Tag_ID := toNum (at_index r iId);
           Tag_Category := if (iCat =? -1)%Z then Str "" else at_index r iCat;
           Priority :=
             if (iPri =? -1)%Z then Num PosInf
             else Num (Number (or_else (at_index r iPri) (Num PosInf)));
           Question := if (iQue =? -1)%Z then Str "" else at_index r iQue;
           Entry_Type := if (iType =? -1)%Z then Str "Text" else at_index r iType;
           Entry_Category := if (iEC =? -1)%Z then Str "" else at_index r iEC;
           Helper_Text := if (iHelp =? -1)%Z then Str "" else at_index r iHelp |})
        rows
  end.

(** De-duplicates shaped tags by [Tag_ID]: the first occurrence wins, and a
    tag whose identifier is not a finite number is dropped.  [seen] is the
    set of the loop. *)
Fixpoint dedupe_loop (seen : list num) (arr : list tagInfo) : list tagInfo :=
  match arr with
  | [] => []
  | t :: arr' =>
      let id := Number (Tag_ID t) in
      if negb (isFinite id) then dedupe_loop seen arr'
      else if bool_decide (id ∈ seen) then dedupe_loop seen arr'
      else t :: dedupe_loop (id :: seen) arr'
  end.

Definition dedupeByTagId (arr : option (list tagInfo)) : list tagInfo :=
  dedupe_loop [] (default [] arr).

(** [arr.sort(cmp)]: the sort is stable, and [x] goes after [y] only when
    [cmp(x, y) > 0]; a [NaN] from the comparator counts as [0].  What the
    engine returns for a comparator that is not consistent is left open by
    the language, so the properties below are stated for consistent ones. *)
Fixpoint sort_insert {A : Type} (cmp : A → A → num) (x : A) (l : list A) : list A :=
  match l with
  | [] => [x]
  | y :: l' => if num_pos (cmp x y) then y :: sort_insert cmp x l' else x :: l
  end.

Definition sort {A : Type} (cmp : A → A → num) (l : list A) : list A :=
  foldr (sort_insert cmp) [] l.

(** [x] may stand before [y]: the comparator does not put it after. *)
Definition before {A : Type} (cmp : A → A → num) (x y : A) : Prop :=
  num_pos (cmp x y) = false.

(** [(a, b) => a - b] *)
Definition ascending (a b : num) : num := num_sub a b.

(** [new Map(entries)]: a later entry replaces an earlier one of its key. *)
Definition MapFrom {V : Type} (entries : list (num * V)) : gmap num V :=
  foldl (λ m kv, <[kv.1 := kv.2]> m) ∅ entries.

(** [n] as a JavaScript number, for the lengths of arrays. *)
Definition of_nat (n : nat) : num := Int (Z.of_nat n).

(** *** Resolver: template -> clauses -> tags *)

Record refTables : Type := {
  templatesTable : option table;
  variablesTable : option table;
  clausesTable : option table
}.

Record resolution : Type := {
  tagsArray : list num;
  clausesArray : list num;
  debug : list string
}.

(** The Variable rows a name of the template matches. *)
Definition variable_matches (vRows : table) (iObj iVType : Z) (name : string) : table :=
  filter (λ r, canon (at_index r iObj) = canon (Str name)
               ∧ canon (at_index r iVType) = "clause") vRows.

(** One round of the loop over [varList]; the state is [clauseIds] and
    [missingVars]. *)
Definition resolve_name (vRows : table) (iObj iVType iAssoc : Z)
    (st : list num * list string) (name : string) : list num * list string :=
  match variable_matches vRows iObj iVType name with
  | [] => (st.1, st.2 ++ [name])
  | matches =>
      (foldl (λ clauseIds r,
                clauseIds ++ uniqNums (map Str (parseList (at_index r iAssoc))))
             st.1 matches,
       st.2)
  end.

(** The loop over [clausesArray] that collects the tags. *)
Definition collect_tags (clauseMap : gmap num row) (iTags : Z)
    (tags : list num) (pc : num) : list num :=
  match clauseMap !! pc with
  | None => tags
  | Some r => tags ++ uniqNums (map Str (parseList (at_index r iTags)))
  end.

Definition getTagsAndClausesByTemplateName (tb : refTables) (templateName : cell)
    : resolution :=
  match templatesTable tb, variablesTable tb, clausesTable tb with
  | Some (tHead :: tRows), Some (vHead :: vRows), Some (cHead :: cRows) =>
      let iTName := findCol tHead ["name"] in
      let iTVar := findCol tHead ["variable"; "array"] in
      match List.find (λ r, bool_decide (canon (at_index r iTName) = canon templateName))
                      tRows with
      | None =>
          {| tagsArray := []; clausesArray := [];
             debug := ["Template not found: " +:+ ToString templateName] |}
      | Some tRow =>
          match parseList (at_index tRow iTVar) with
          | [] =>
              {| tagsArray := []; clausesArray := [];
                 debug := ["Template Variable_Array is empty."] |}
          | varList =>
              let iObj := findCol vHead ["object"; "name"] in
              let iVType := findCol vHead ["variable"; "type"] in
              let iAssoc := findCol vHead ["associated"; "clause"; "array"] in
              let '(clauseIds, missingVars) :=
                foldl (resolve_name vRows iObj iVType iAssoc) ([], []) varList in
              let debug1 :=
                match missingVars with
                | [] => []
                | _ => ["Variables not found (or not type " +:+ String dquote "Clause"
                        +:+ String dquote "): " +:+ String.concat ", " missingVars]
                end in
              let clausesArray := sort ascending (uniqNums (map Num clauseIds)) in
              let debug2 :=
                debug1 ++ ["Resolved " +:+ NumberToString (of_nat (length clausesArray))
                           +:+ " clause IDs from "
                           +:+ NumberToString (of_nat (length varList))
                           +:+ " variable names."] in
              let iPc := findCol_or_first cHead ["pc"; "id"] in
              let iTags := findCol cHead ["tags"; "array"] in
              let clauseMap := MapFrom (map (λ r, (Number (at_index r iPc), r)) cRows) in
              let tags := foldl (collect_tags clauseMap iTags) [] clausesArray in
              let tagsArray := sort ascending (uniqNums (map Num tags)) in
              {| tagsArray := tagsArray; clausesArray := clausesArray;
                 debug := debug2 ++ ["Collected " +:+ NumberToString (of_nat (length tagsArray))
                                     +:+ " unique tag IDs from clauses."] |}
          end
      end
  | _, _, _ =>
      {| tagsArray := []; clausesArray := []; debug := ["One or more tables are empty."] |}
  end.

(** *** Evaluation: tags -> clauses *)

(** The truth value of one answered tag, from its row of the tag table. *)
Definition tag_truth (r : row) (iECat iType : Z) (v : cell) : Z :=
  let entryCat := canon (at_index r iECat) in
  let entryType := canon (at_index r iType) in
  if bool_decide (entryCat = "bool") then
    let val := canon v in
    if bool_decide (val = "yes") then 1
    else if bool_decide (val = "no") then -1 else 0
  else if bool_decide (entryType = "no display") then
    (if nonempty (trim (ToString (nullish v (Str "")))) then 1 else 0)
  else
    (if nonempty (trim (ToString (nullish v (Str "")))) then 1 else 0).

(** One round of the loop over [Object.entries(answeredTags)]. *)
Definition answer_step (rowById : gmap num row) (iECat iType : Z)
    (out : gmap num Z) (kv : string * cell) : gmap num Z :=
  let id := Number (Str kv.1) in
  match rowById !! id with
  | None => out
  | Some r => <[id := tag_truth r iECat iType kv.2]> out
  end.

(** The answers are the entries of the object, in the order of
    [Object.entries]. *)
Definition evaluateTagsBuildMode (answeredTags : option (list (string * cell)))
    (filteredTagsTable : option table) : gmap num Z :=
  match filteredTagsTable with
  | None | Some [] => ∅
  | Some (head :: rows) =>
      let iId := findCol_or_first head ["tag"; "id"] in
      let iECat := findCol head ["entry"; "category"] in
      let iType := findCol head ["entry"; "type"] in
      let rowById := MapFrom (map (λ r, (Number (at_index r iId), r)) rows) in
      foldl (answer_step rowById iECat iType) ∅ (default [] answeredTags)
  end.

(** [obj?.[k]] on an object keyed by numbers. *)
Definition prop {V : Type} (obj : option (gmap num V)) (k : num) : option V :=
  obj ≫= (λ m, m !! k).

(** [val] of [evaluateClauses]. *)
Definition val (assignedTags : option (gmap num Z)) (tagId : num) : Z :=
  let v := prop assignedTags tagId in
  if bool_decide (v = Some 1) then 1
  else if bool_decide (v = Some (-1)) then -1 else 0.

(** The body of the loop over the clause rows. *)
Definition evaluate_row (assignedTags : option (gmap num Z)) (iPc iInc iExc : Z)
    (result : gmap num Z) (r : row) : gmap num Z :=
  let pc := Number (at_index r iPc) in
  let inc := uniqNums (map Str (parseList (at_index r iInc))) in
  let exc := uniqNums (map Str (parseList (at_index r iExc))) in
  if existsb (λ t, (val assignedTags t =? -1)%Z) inc then <[pc := -1]> result
  else if existsb (λ t, (val assignedTags t =? 1)%Z) exc then <[pc := -1]> result
  else
    let incAllOne :=
      match inc with [] => true | _ => forallb (λ t, (val assignedTags t =? 1)%Z) inc end in
    let excAllNeg :=
      match exc with [] => true | _ => forallb (λ t, (val assignedTags t =? -1)%Z) exc end in
    <[pc := if incAllOne && excAllNeg then 1 else 0]> result.

Definition evaluateClauses (assignedTags : option (gmap num Z))
    (filteredClausesTable : option table) : gmap num Z :=
  match filteredClausesTable with
  | None | Some [] => ∅
  | Some (head :: rows) =>
      let iPc := findCol_or_first head ["pc"; "id"] in
      let iInc := findCol head ["include"; "if"; "list"] in
      let iExc := findCol head ["exclude"; "if"; "list"] in
      foldl (evaluate_row assignedTags iPc iInc iExc) ∅ rows
  end.

(** *** Next questions *)

Record nextResult : Type := {
  status : string;
  nextQuestions : list tagInfo;
  ratioCompletedTags : num
}.

(** [Object.values(obj)]; only their number matters below. *)
Definition ObjectValues (obj : gmap num Z) : list Z := (map_to_list obj).*2.

(** [a / b] for two lengths, [b] not zero. *)
Definition length_ratio (a b : nat) : num :=
  Fin (Q2Qc (Z.of_nat a # Pos.of_nat b)).

(** The question made up for a pending tag that has no shaped row. *)
Definition fallback_question (id : num) : tagInfo :=
  {| Tag_ID := Num id;
     Question := Str ("Answer for Tag " +:+ NumberToString id);
     Entry_Type := Str "Text";
     Entry_Category := Str "";
     Helper_Text := Str "";
     Priority := Num PosInf;
     Tag_Category := Str "" |}.

(** The body of the loop that joins the pending tags with [tagsInfo]. *)
Definition question_of (infoById : gmap num tagInfo) (id : num) : tagInfo :=
  match infoById !! id with
  | Some t => t
  | None => fallback_question id
  end.

(** The comparator of the questions:
    [(a.Priority ?? Infinity) - (b.Priority ?? Infinity) || a.Tag_ID - b.Tag_ID] *)
Definition by_priority (a b : tagInfo) : num :=
  num_or (num_sub (Number (nullish (Priority a) (Num PosInf)))
                  (Number (nullish (Priority b) (Num PosInf))))
         (num_sub (Number (Tag_ID a)) (Number (Tag_ID b))).

(** The loop that collects the tags of the unresolved clauses. *)
Definition unresolved_tags (rowsByPc : gmap num row) (iTags : Z)
    (unresolvedClauses : list num) : list num :=
  foldl (collect_tags rowsByPc iTags) [] unresolvedClauses.

Definition pending_tags (assignedTags : option (gmap num Z))
    (unresolvedTagIds : list num) : list num :=
  filter (λ tid, prop assignedTags tid = None ∨ prop assignedTags tid = Some 0)
         (uniqNums (map Num unresolvedTagIds)).

Definition returnNextTagQuestions
    (clauseEval : option (gmap num Z))
    (filteredClausesTable : option table)
    (clausesArray : option (list num))
    (assignedTags : option (gmap num Z))
    (tagsArray : option (list num))
    (tagsInfo : option (list tagInfo)) : nextResult :=
  let totalTags := length (default [] tagsArray) in
  let assignedCount :=
    length (filter (λ v, v = 1 ∨ v = -1) (ObjectValues (default ∅ assignedTags))) in
  let ratioCompletedTags :=
    if (0 <? totalTags)%nat then length_ratio assignedCount totalTags else Int 0 in
  let unresolvedClauses :=
    filter (λ pc, prop clauseEval pc = Some 0) (default [] clausesArray) in
  match unresolvedClauses with
  | [] =>
      {| status := "done"; nextQuestions := []; ratioCompletedTags := ratioCompletedTags |}
  | _ =>
      match filteredClausesTable with
      | None | Some [] =>
          {| status := "ask"; nextQuestions := [];
             ratioCompletedTags := ratioCompletedTags |}
      | Some (head :: rows) =>
          let iPc := findCol_or_first head ["pc"; "id"] in
          let iTags := findCol head ["tags"; "array"] in
          let rowsByPc := MapFrom (map (λ r, (Number (at_index r iPc), r)) rows) in
          let unresolvedTagIds := unresolved_tags rowsByPc iTags unresolvedClauses in
          let pendingTagIds := pending_tags assignedTags unresolvedTagIds in
          match pendingTagIds with
          | [] =>
              {| status := "done"; nextQuestions := [];
                 ratioCompletedTags := ratioCompletedTags |}
          | _ =>
              let infoById :=
                MapFrom (map (λ t, (Number (Tag_ID t), t)) (default [] tagsInfo)) in
              let nextInfo := map (question_of infoById) pendingTagIds in
              {| status := "ask";
                 nextQuestions := sort by_priority (dedupeByTagId (Some nextInfo));
                 ratioCompletedTags := ratioCompletedTags |}
          end
      end
  end.

End Engine.

(** ** The conversions on decimal integers

    The properties below hold for every [Runtime]; the examples need one.
    Their cells hold identifiers written as decimal integers, and [decimal]
    is the JavaScript conversion on such strings, on the three names of
    [Infinity], and on the integers below [10^21] in size.  On other numeric
    literals (fractions, exponents, other radices) JavaScript gives a number
    where [decimal] gives [NaN], and a number that is not an integer is
    printed as a fraction: the examples use neither. *)
Definition digit_of (a : ascii) : option Z :=
  let n := nat_of_ascii a in
  if ((48 <=? n)%nat && (n <=? 57)%nat)%bool then Some (Z.of_nat n - 48) else None.

Fixpoint digits_go (acc : Z) (s : string) : option Z :=
  match s with
  | EmptyString => Some acc
  | String a s' =>
      match digit_of a with
      | Some d => digits_go (10 * acc + d) s'
      | None => None
      end
  end.

Definition digits (s : string) : option Z :=
  match s with EmptyString => None | _ => digits_go 0 s end.

Definition decimal_StringToNumber (s : string) : num :=
  match trim s with
  | EmptyString => Int 0
  | String a s' as t =>
      if bool_decide (t = "Infinity") || bool_decide (t = "+Infinity") then PosInf
      else if bool_decide (t = "-Infinity") then NegInf
      else if Ascii.eqb a "-" then from_option (λ z, Int (- z)) NaN (digits s')
      else if Ascii.eqb a "+" then from_option Int NaN (digits s')
      else from_option Int NaN (digits t)
  end.

Fixpoint positive_digits (fuel : nat) (z : Z) (acc : string) : string :=
  match fuel with
  | O => acc
  | S fuel' =>
      let acc' := String (ascii_of_nat (Z.to_nat (48 + z mod 10))) acc in
      if (z / 10 =? 0)%Z then acc' else positive_digits fuel' (z / 10) acc'
  end.

(** The decimal digits of a number are no more than its binary ones. *)
Definition decimal_of_Z (z : Z) : string :=
  let fuel := S (Z.to_nat (Z.log2 (Z.abs z))) in
  if (z <? 0)%Z then String "-" (positive_digits fuel (- z) EmptyString)
  else positive_digits fuel z EmptyString.

Definition decimal_NumberToString (n : num) : string :=
  match n with
  | NaN => "NaN"
  | PosInf => "Infinity"
  | NegInf => "-Infinity"
  | Fin q =>
      match this q with
      | Qmake z 1 => decimal_of_Z z
      | Qmake z d => decimal_of_Z z +:+ "/" +:+ decimal_of_Z (Zpos d)
      end
  end.

Definition decimal : Runtime :=
  {| StringToNumber := decimal_StringToNumber;
     NumberToString := decimal_NumberToString |}.

(** ** The rule of the clause evaluator, in the words of the specification

    [value] is the truth value of a tag: its entry in the mapping when there
    is one, and 0 otherwise.  [spec_verdict] is the verdict of a clause with
    the parsed lists [inc] and [exc], by the four rules in their order. *)
Definition value (tagTruth : option (gmap num Z)) (tagId : num) : Z :=
  default 0 (prop tagTruth tagId).

Definition spec_verdict (tagTruth : option (gmap num Z)) (inc exc : list num) : Z :=
  if bool_decide (Exists (λ t, value tagTruth t = -1) inc) then -1
  else if bool_decide (Exists (λ t, value tagTruth t = 1) exc) then -1
  else if bool_decide (Forall (λ t, value tagTruth t = 1) inc
                       ∧ Forall (λ t, value tagTruth t = -1) exc) then 1
  else 0.

(** The key and the two parsed lists of a clause row, under the header
    [head] of its table. *)
Definition PC_ID_of {rt : Runtime} (head r : row) : num :=
  Number (at_index r (findCol_or_first head ["pc"; "id"])).

Definition Include_If_List_of {rt : Runtime} (head r : row) : list num :=
  uniqNums (map Str (parseList (at_index r (findCol head ["include"; "if"; "list"])))).

Definition Exclude_If_List_of {rt : Runtime} (head r : row) : list num :=
  uniqNums (map Str (parseList (at_index r (findCol head ["exclude"; "if"; "list"])))).

(** [later] is [earlier] with more positive answers: every tag has the value
    it had, or had no value or the value 0 and now has the value 1. *)
Definition adds_positive (earlier later : option (gmap num Z)) : Prop :=
  ∀ t, prop later t = prop earlier t
       ∨ ((prop earlier t = None ∨ prop earlier t = Some 0) ∧ prop later t = Some 1).

(** ** Tables of the examples

    The header and four clause rows: clause 1 needs tag 10, clause 2 is
    vetoed by tag 20, clause 3 needs tags 10 and 99 and is vetoed by tag 20,
    clause 4 has no condition. *)
Definition ex_clause_head : row :=
  [Str "PC_ID"; Str "Include_If_List"; Str "Exclude_If_List"; Str "Tags_Array"].

Definition ex_clause1 : row := [Num (Int 1); Str "10"; Str ""; Str "10"].
Definition ex_clause2 : row := [Num (Int 2); Str ""; Str "20"; Str "20"].
Definition ex_clause3 : row := [Num (Int 3); Str "10, 99"; Str "20"; Str "10,20,99"].
Definition ex_clause4 : row := [Num (Int 4); Str ""; Str ""; Str ""].

Definition ex_clauses : table :=
  [ex_clause_head; ex_clause1; ex_clause2; ex_clause3; ex_clause4].

(** ** The rule of the tag answer evaluator, in the words of the
    specification

    [Tag_ID_of] is the identifier of a row of the tag table, [tag_row] the
    row the index [rowById] holds for an identifier (the last one of that
    identifier), and [spec_truth] the truth value of the answer [a] to the
    tag of row [r]. *)
Definition Tag_ID_of {rt : Runtime} (head r : row) : num :=
  Number (at_index r (findCol_or_first head ["tag"; "id"])).

Definition tag_row {rt : Runtime} (head : row) (rows : table) (id : num) : option row :=
  last (filter (λ r, Tag_ID_of head r = id) rows).

Definition spec_truth {rt : Runtime} (head r : row) (a : cell) : Z :=
  if bool_decide (canon (at_index r (findCol head ["entry"; "category"])) = "bool")
  then (if bool_decide (canon a = "yes") then 1
        else if bool_decide (canon a = "no") then -1 else 0)
  else (if nonempty (trim (ToString (nullish a (Str "")))) then 1 else 0).

(** A tag table: tag 10 and tag 20 are yes/no tags, tag 30 is free text and
    not displayed, tag 40 has a priority that is not a number. *)
Definition ex_tag_head : row :=
  [Str "Tag_ID"; Str "Question"; Str "Entry_Type"; Str "Entry_Category"; Str "Priority"].

Definition ex_tag10 : row :=
  [Num (Int 10); Str "Is there a tenant?"; Str "Radio"; Str "Bool"; Num (Int 2)].
Definition ex_tag20 : row :=
  [Num (Int 20); Str "Is it sublet?"; Str "Radio"; Str " bool "; Num (Int 0)].
Definition ex_tag30 : row :=
  [Num (Int 30); Str "Notes"; Str "No_Display"; Str "Text"; Num (Int 1)].

Definition ex_tags : table := [ex_tag_head; ex_tag10; ex_tag20; ex_tag30].

Definition ex_answers : list (string * cell) :=
  [("10", Str "Yes"); ("20", Str " NO"); ("30", Str "  "); ("99", Str "yes")].

(** ** The resolver, in the words of the specification

    [template_of] is the first Template row whose canonical name is the
    canonical template name; [template_present] says that there is one.
    [clause_of_template] says that [c] is a numeric identifier of the
    Associated_Clause_Array of a Variable row whose Object_Name canonically
    matches a name of the Variable_Array of the template row and whose
    Variable_Type is canonically "clause".  [clause_row] is the row the index
    of the Clause table holds for an identifier, and [tag_of_clauses] says
    that [t] is a numeric identifier of the Tags_Array of one of the clauses
    that have a row. *)
Definition template_of {rt : Runtime} (tHead : row) (tRows : table) (name : cell)
    : option row :=
  List.find (λ r, bool_decide (canon (at_index r (findCol tHead ["name"])) = canon name))
            tRows.

Definition template_present {rt : Runtime} (tb : refTables) (name : cell) : Prop :=
  match templatesTable tb with
  | Some (tHead :: tRows) =>
      Exists (λ r, canon (at_index r (findCol tHead ["name"])) = canon name) tRows
  | _ => False
  end.

Definition clause_of_template {rt : Runtime} (tHead tRow vHead : row) (vRows : table)
    (c : num) : Prop :=
  isFinite c = true
  ∧ ∃ name r tok,
      name ∈ parseList (at_index tRow (findCol tHead ["variable"; "array"]))
      ∧ r ∈ vRows
      ∧ canon (at_index r (findCol vHead ["object"; "name"])) = canon (Str name)
      ∧ canon (at_index r (findCol vHead ["variable"; "type"])) = "clause"
      ∧ tok ∈ parseList (at_index r (findCol vHead ["associated"; "clause"; "array"]))
      ∧ Number (Str tok) = c.

Definition clause_row {rt : Runtime} (cHead : row) (cRows : table) (pc : num)
    : option row :=
  last (filter (λ r, PC_ID_of cHead r = pc) cRows).

Definition tag_of_clauses {rt : Runtime} (cHead : row) (cRows : table)
    (clauses : list num) (t : num) : Prop :=
  isFinite t = true
  ∧ ∃ pc r tok,
      pc ∈ clauses
      ∧ clause_row cHead cRows pc = Some r
      ∧ tok ∈ parseList (at_index r (findCol cHead ["tags"; "array"]))
      ∧ Number (Str tok) = t.

(** The tables of Scenario A: the template "Lease" with the variables
    Tenant and Landlord, of type Clause, bound to the clauses 1, 2 and 2, 3. *)
Definition ex_template_head : row := [Str "Name"; Str "Variable_Array"].
Definition ex_lease : row := [Str "Lease"; Str "Tenant, Landlord"].

Definition ex_variable_head : row :=
  [Str "Object_Name"; Str "Variable_Type"; Str "Associated_Clause_Array"].
Definition ex_tenant : row := [Str "Tenant"; Str "Clause"; Str "1,2"].
Definition ex_landlord : row := [Str "Landlord"; Str "Clause"; Str "2,3"].

Definition scenario_A : refTables :=
  {| templatesTable := Some [ex_template_head; ex_lease];
     variablesTable := Some [ex_variable_head; ex_tenant; ex_landlord];
     clausesTable := Some ex_clauses |}.

(** Scenario A with a Clause table that has no row at all, not even the
    header. *)
Definition scenario_A_no_clause_table : refTables :=
  {| templatesTable := Some [ex_template_head; ex_lease];
     variablesTable := Some [ex_variable_head; ex_tenant; ex_landlord];
     clausesTable := Some [] |}.

(** ** The completion ratio, in the words of the specification

    [answered_in] is the number of tags of the universe whose truth value is
    1 or -1, and [spec_ratio] that number divided by the size of the
    universe, or 0 for an empty universe. *)
Definition answered_in (tagTruth : option (gmap num Z)) (universe : list num) : nat :=
  length (filter (λ t, prop tagTruth t = Some 1 ∨ prop tagTruth t = Some (-1)) universe).

Definition spec_ratio (tagTruth : option (gmap num Z)) (universe : list num) : num :=
  if (0 <? length universe)%nat
  then length_ratio (answered_in tagTruth universe) (length universe)
  else Int 0.

(** ** The question scheduler, in the words of the specification

    [unresolved] are the clauses of the universe with verdict 0, and
    [is_pending] says that [t] is a tag of the Tags_Array of an unresolved
    clause whose truth value is missing or 0 (no tag is, without a clause
    table).  [priority_of] is the priority of a question, a missing one being
    the lowest, [Infinity]; [question_le] is the order of the questions: by
    priority, then by identifier. *)
Definition unresolved (clauseEval : option (gmap num Z)) (clauses : option (list num))
    : list num :=
  filter (λ pc, prop clauseEval pc = Some 0) (default [] clauses).

Definition is_pending {rt : Runtime} (tbl : option table)
    (clauseEval : option (gmap num Z)) (clauses : option (list num))
    (tagTruth : option (gmap num Z)) (t : num) : Prop :=
  match tbl with
  | Some (head :: rows) =>
      tag_of_clauses head rows (unresolved clauseEval clauses) t
      ∧ (prop tagTruth t = None ∨ prop tagTruth t = Some 0)
  | _ => False
  end.

Definition priority_of {rt : Runtime} (q : tagInfo) : num :=
  Number (nullish (Priority q) (Num PosInf)).

Definition id_of {rt : Runtime} (q : tagInfo) : num := Number (Tag_ID q).

Definition question_le {rt : Runtime} (a b : tagInfo) : Prop :=
  num_lt (priority_of a) (priority_of b)
  ∨ (priority_of a = priority_of b ∧ num_le (id_of a) (id_of b)).

(** The questions the comparator is consistent on: the priority is a
    number, the identifier a finite one. *)
Definition comparable {rt : Runtime} (q : tagInfo) : Prop :=
  priority_of q ≠ NaN ∧ isFinite (id_of q) = true.

(** The inputs of the scheduler in the examples: the verdicts of the four
    clauses when nothing is answered, and the shaped rows of the tag table. *)
Definition ex_verdicts : gmap num Z := evaluateClauses (rt:=decimal) None (Some ex_clauses).

Definition ex_universe : list num := [Int 1; Int 2; Int 3; Int 4].

Definition ex_info : list tagInfo := shapeTagsInfo (rt:=decimal) (Some ex_tags).

(** ** Further notions used by the properties of the remaining code

    [answers_more]: [later] gives every tag the value it had in [earlier],
    unless the tag had no value or the value 0 there. *)
Definition answers_more (earlier later : option (gmap num Z)) : Prop :=
  ∀ t, prop later t = prop earlier t ∨ prop earlier t = None ∨ prop earlier t = Some 0.

(** The label [findCol] tests for a header cell. *)
Definition header_label {rt : Runtime} (c : cell) : string :=
  trim (collapse_ws (underscores_to_spaces (ToString (nullish c (Str ""))))).

(** [bool_tag tags t]: the row the tag table holds for the tag [t] has the
    canonical Entry_Category "bool". *)
Definition bool_tag {rt : Runtime} (tags : option table) (t : num) : Prop :=
  ∃ head rows r,
    tags = Some (head :: rows) ∧ tag_row head rows t = Some r
    ∧ canon (at_index r (findCol head ["entry"; "category"])) = "bool".

(** No Priority cell of the rows is a string. *)
Definition priority_cells_not_strings {rt : Runtime} (head : row) (rows : table) : Prop :=
  Forall (λ r, ∀ s, at_index r (findCol head ["priority"]) ≠ Str s) rows.

(** Every character of a string passes a test. *)
Fixpoint string_forall (P : ascii → bool) (s : string) : bool :=
  match s with
  | EmptyString => true
  | String a s' => P a && string_forall P s'
  end.

(** A string that is empty or starts with a character that is no white
    space. *)
Definition starts_solid (s : string) : bool :=
  match s with EmptyString => true | String a _ => negb (is_ws a) end.

(** An upper-case letter. *)
Definition is_upper (a : ascii) : bool :=
  let n := nat_of_ascii a in (65 <=? n)%nat && (n <=? 90)%nat.

(** ** The callers in [App.jsx]

    [recompute] runs the resolver, restricts the Clause and Tag tables,
    evaluates the answers and schedules the next questions; it sets eight
    state variables of the component, which are the fields of [appState] (the
    prefix tells them from the results they are copied from).  [tables] is
    the object of the database hook, or [null]. *)
Record appTables : Type := {
  refs : refTables;
  tagsTable : option table
}.

Record appState : Type := {
  st_resolverDebug : list string;
  st_tagsArray : list num;
  st_clausesArray : list num;
  st_filteredTagsTable : table;
  st_filteredClausesTable : table;
  st_nextQuestions : list tagInfo;
  st_ratioCompleted : num;
  st_status : string
}.

Section App.
Context {rt : Runtime}.

Definition recompute (tables : option appTables) (templateName : string)
    (answers : list (string * cell)) (st : appState) : appState :=
  match tables with
  | None => st
  | Some tables =>
      if negb (nonempty templateName) then st
      else
        let res := getTagsAndClausesByTemplateName (refs tables) (Str templateName) in
        match clausesArray res with
        | [] =>
            {| st_resolverDebug := debug res;
               st_tagsArray := tagsArray res;
               st_clausesArray := clausesArray res;
               st_filteredTagsTable := [];
               st_filteredClausesTable := [];
               st_nextQuestions := [];
               st_ratioCompleted := Int 0;
               st_status := "empty-template" |}
        | _ =>
            let _filteredTags :=
              filterTableByIds (tagsTable tables) (Some (map Num (tagsArray res))) in
            let _filteredClauses :=
              filterTableByIds (clausesTable (refs tables))
                (Some (map Num (clausesArray res))) in
            let tagsInfoRaw := shapeTagsInfo (Some _filteredTags) in
            let tagsInfo := dedupeByTagId (Some tagsInfoRaw) in
            let assigned := evaluateTagsBuildMode (Some answers) (Some _filteredTags) in
            let clauseEval := evaluateClauses (Some assigned) (Some _filteredClauses) in
            let next :=
              returnNextTagQuestions (Some clauseEval) (Some _filteredClauses)
                (Some (clausesArray res)) (Some assigned) (Some (tagsArray res))
                (Some tagsInfo) in
            {| st_resolverDebug := debug res;
               st_tagsArray := tagsArray res;
               st_clausesArray := clausesArray res;
               st_filteredTagsTable := _filteredTags;
               st_filteredClausesTable := _filteredClauses;
               st_nextQuestions := nextQuestions next;
               st_ratioCompleted := ratioCompletedTags next;
               st_status := status next |}
        end
  end.

(** A question object of the user interface: a shaped tag, and the mark
    [__coerced] that [coerceForUI] sets ([false] for a mark that is not
    there). *)
Record uiQuestion : Type := {
  tag : tagInfo;
  __coerced : bool
}.

(** [String(t.Entry_Type || "").toLowerCase()] *)
Definition entry_type_of (t : tagInfo) : string :=
  toLowerCase (ToString (or_else (Entry_Type t) (Str ""))).

Definition with_Entry_Type (t : tagInfo) (entryType : string) : tagInfo :=
  {| Tag_ID := Tag_ID t;
     Tag_Category := Tag_Category t;
     Priority := Priority t;
     Question := Question t;
     Entry_Type := Str entryType;
     Entry_Category := Entry_Category t;
     Helper_Text := Helper_Text t |}.

(** If a tag is No Display, make it renderable ([COERCE_NO_DISPLAY] is
    [true]). *)
Definition coerceForUI (q : uiQuestion) (entryOptionsMap : gmap string (list string))
    : uiQuestion :=
  let type := entry_type_of (tag q) in
  if negb (bool_decide (type = "no display")) then q
  else
    let catKey := toLowerCase (trim (ToString (or_else (Entry_Category (tag q)) (Str "")))) in
    let opts := default [] (entryOptionsMap !! catKey) in
    {| tag :=
         with_Entry_Type (tag q)
           (if bool_decide (catKey = "bool") then "Radio"
            else if (0 <? length opts)%nat then "Drop Down" else "Text");
       __coerced := true |}.

(** The loop of [renderQuestions]: the final de-duplication and coercion for
    the user interface. *)
Fixpoint render_loop (entryOptionsMap : gmap string (list string)) (seen : list num)
    (qs : list tagInfo) : list uiQuestion :=
  match qs with
  | [] => []
  | q :: qs' =>
      let id := Number (Tag_ID q) in
      if negb (isFinite id) then render_loop entryOptionsMap seen qs'
      else if bool_decide (id ∈ seen) then render_loop entryOptionsMap seen qs'
      else coerceForUI {| tag := q; __coerced := false |} entryOptionsMap
           :: render_loop entryOptionsMap (id :: seen) qs'
  end.

Definition renderQuestions (nextQuestions : option (list tagInfo))
    (entryOptionsMap : gmap string (list string)) : list uiQuestion :=
  render_loop entryOptionsMap [] (default [] nextQuestions).

End App.

(** The state of the component before a template is chosen. *)
Definition ex_initial_state : appState :=
  {| st_resolverDebug := []; st_tagsArray := []; st_clausesArray := [];
     st_filteredTagsTable := []; st_filteredClausesTable := [];
     st_nextQuestions := []; st_ratioCompleted := Int 0; st_status := "idle" |}.

Definition ex_tables : appTables := {| refs := scenario_A; tagsTable := Some ex_tags |}.

(** ** The database hook, [useDatabase.js]

    The hook has a column finder of its own, which does not collapse white
    space, and derives the names of the templates it offers from the
    Document table. *)
Module useDatabase.
Section Hook.
Context {rt : Runtime}.

Fixpoint findCol_from (i : Z) (hdr : row) (name : list string) : Z :=
  match hdr with
  | [] => -1
  | c :: hdr' =>
      let h := trim (underscores_to_spaces (ToString (nullish c (Str "")))) in
      if rx_test name h then i else findCol_from (i + 1) hdr' name
  end.

Definition findCol (hdr : row) (name : list string) : Z := findCol_from 0 hdr name.

(** [Array.from(new Set(names))] on strings. *)
Fixpoint SetFromStrings (l : list string) : list string :=
  match l with
  | [] => []
  | x :: l' => x :: filter (λ y, y ≠ x) (SetFromStrings l')
  end.

(** The value given to [setTemplates]. *)
Definition templates (templatesTable : table) : list string :=
  let head := hd [] templatesTable in
  let iName := if negb (findCol head ["name"] =? -1)%Z then findCol head ["name"] else 0 in
  let names :=
    List.filter nonempty
      (map (λ r, trim (ToString (nullish (at_index r iName) (Str ""))))
           (tail templatesTable)) in
  SetFromStrings names.

End Hook.
End useDatabase.

(** * Properties *)

(** ** Sets, maps and sorting *)

Lemma elem_of_SetFrom (l : list num) (x : num) : x ∈ SetFrom l ↔ x ∈ l.
Proof.
  induction l as [|y l IH]; simpl; [reflexivity|].
  rewrite !elem_of_cons, list_elem_of_filter, IH.
  destruct (decide (x = y)); naive_solver.
Qed.

Lemma NoDup_SetFrom (l : list num) : NoDup (SetFrom l).
Proof.
  induction l as [|y l IH]; simpl; constructor.
  - rewrite list_elem_of_filter. naive_solver.
  - by apply NoDup_filter.
Qed.

Section EngineFacts.
Context {rt : Runtime}.

Lemma elem_of_uniqNums (arr : list cell) (n : num) :
  n ∈ uniqNums arr ↔ isFinite n = true ∧ ∃ c, c ∈ arr ∧ Number c = n.
Proof.
  unfold uniqNums. rewrite list_elem_of_filter, elem_of_SetFrom, list_elem_of_fmap.
  naive_solver.
Qed.

Lemma NoDup_uniqNums (arr : list cell) : NoDup (uniqNums arr).
Proof. apply NoDup_filter, NoDup_SetFrom. Qed.

(** C10. [filterTableByIds] returns [[]] for an absent or empty table; the
    header row alone for a non-empty table and an absent or empty list of
    identifiers; and otherwise the header row followed by exactly the data
    rows whose first cell, as a number, is the number of some identifier of
    the list, in the order of the table. *)
Theorem filterTableByIds_spec :
  (∀ ids, filterTableByIds None ids = [] ∧ filterTableByIds (Some []) ids = [])
  ∧ (∀ head rows,
       filterTableByIds (Some (head :: rows)) None = [head]
       ∧ filterTableByIds (Some (head :: rows)) (Some []) = [head])
  ∧ (∀ head rows id ids,
       filterTableByIds (Some (head :: rows)) (Some (id :: ids))
       = head :: filter (λ r, Number (at_index r 0) ∈ map Number (id :: ids)) rows
       ∧ filterTableByIds (Some (head :: rows)) (Some (id :: ids))
         `sublist_of` head :: rows).
Proof.
  split; [done|]. split; [done|].
  intros head rows id ids.
  assert (filterTableByIds (Some (head :: rows)) (Some (id :: ids))
          = head :: filter (λ r, Number (at_index r 0) ∈ map Number (id :: ids)) rows)
    as ->.
  { unfold filterTableByIds. f_equal. apply list_filter_iff.
    intros r. apply elem_of_SetFrom. }
  split; [done|]. apply sublist_skip, sublist_filter.
Qed.

(** *** The clause evaluator *)

Lemma val_neg (A : option (gmap num Z)) (t : num) :
  (val A t =? -1)%Z = bool_decide (value A t = -1).
Proof.
  unfold val, value. destruct (prop A t) as [v|]; simpl; [|done].
  repeat case_bool_decide; simplify_eq; done.
Qed.

Lemma val_pos (A : option (gmap num Z)) (t : num) :
  (val A t =? 1)%Z = bool_decide (value A t = 1).
Proof.
  unfold val, value. destruct (prop A t) as [v|]; simpl; [|done].
  repeat case_bool_decide; simplify_eq; done.
Qed.

Lemma existsb_Exists {A} (f : A → bool) (P : A → Prop) `{!∀ x, Decision (P x)}
    (l : list A) :
  (∀ x, f x = bool_decide (P x)) → existsb f l = bool_decide (Exists P l).
Proof.
  intros Hf. induction l as [|x l IH]; cbn [existsb].
  - symmetry. apply bool_decide_eq_false_2. by inversion 1.
  - rewrite IH, Hf. apply eq_true_iff_eq.
    rewrite orb_true_iff, !bool_decide_eq_true, Exists_cons. done.
Qed.

Lemma forallb_Forall {A} (f : A → bool) (P : A → Prop) `{!∀ x, Decision (P x)}
    (l : list A) :
  (∀ x, f x = bool_decide (P x)) → forallb f l = bool_decide (Forall P l).
Proof.
  intros Hf. induction l as [|x l IH]; cbn [forallb].
  - symmetry. by apply bool_decide_eq_true_2.
  - rewrite IH, Hf. apply eq_true_iff_eq.
    rewrite andb_true_iff, !bool_decide_eq_true, Forall_cons. done.
Qed.

(** The body of the loop stores the verdict of the specification under the
    key of the row. *)
Lemma evaluate_row_spec (A : option (gmap num Z)) (head : row)
    (result : gmap num Z) (r : row) :
  evaluate_row A (findCol_or_first head ["pc"; "id"])
    (findCol head ["include"; "if"; "list"]) (findCol head ["exclude"; "if"; "list"])
    result r
  = <[PC_ID_of head r :=
        spec_verdict A (Include_If_List_of head r) (Exclude_If_List_of head r)]> result.
Proof.
  unfold evaluate_row, spec_verdict, PC_ID_of, Include_If_List_of, Exclude_If_List_of.
  set (inc := uniqNums _). set (exc := uniqNums _).
  rewrite (existsb_Exists _ (λ t, value A t = -1)) by apply val_neg.
  rewrite (existsb_Exists _ (λ t, value A t = 1)) by apply val_pos.
  do 2 (case_bool_decide; [done|]).
  assert (match inc with [] => true | _ => forallb (λ t, (val A t =? 1)%Z) inc end
          = bool_decide (Forall (λ t, value A t = 1) inc)) as ->.
  { rewrite <- (forallb_Forall (λ t, (val A t =? 1)%Z)) by apply val_pos.
    by destruct inc. }
  assert (match exc with [] => true | _ => forallb (λ t, (val A t =? -1)%Z) exc end
          = bool_decide (Forall (λ t, value A t = -1) exc)) as ->.
  { rewrite <- (forallb_Forall (λ t, (val A t =? -1)%Z)) by apply val_neg.
    by destruct exc. }
  f_equal. repeat case_bool_decide; simpl; naive_solver.
Qed.

Lemma evaluateClauses_snoc (A : option (gmap num Z)) (head : row) (rows : table) (r : row) :
  evaluateClauses A (Some (head :: rows ++ [r]))
  = <[PC_ID_of head r :=
        spec_verdict A (Include_If_List_of head r) (Exclude_If_List_of head r)]>
      (evaluateClauses A (Some (head :: rows))).
Proof. unfold evaluateClauses. rewrite foldl_app. apply evaluate_row_spec. Qed.

(** The result holds, under the key of a row that no later row shares, the
    verdict of that row. *)
Lemma evaluateClauses_lookup (A : option (gmap num Z)) (head : row)
    (rows1 : table) (r : row) (rows2 : table) :
  Forall (λ r', PC_ID_of head r' ≠ PC_ID_of head r) rows2 →
  evaluateClauses A (Some (head :: rows1 ++ r :: rows2)) !! PC_ID_of head r
  = Some (spec_verdict A (Include_If_List_of head r) (Exclude_If_List_of head r)).
Proof.
  induction rows2 as [|r2 rows2 IH] using rev_ind; intros Hlater.
  - rewrite evaluateClauses_snoc. apply lookup_insert_eq.
  - apply Forall_app in Hlater as [Hlater Hr2].
    rewrite Forall_singleton in Hr2.
    replace (rows1 ++ r :: rows2 ++ [r2]) with ((rows1 ++ r :: rows2) ++ [r2])
      by by rewrite <- app_assoc.
    rewrite evaluateClauses_snoc, lookup_insert_ne by done. by apply IH.
Qed.

(** C1. Under the key of a clause row (its numeric PC_ID, that no later row
    of the table has), [evaluateClauses] stores the verdict of the four rules
    of the specification on the row's parsed include and exclude lists, a
    tag without entry in the mapping counting as 0; the body of the loop
    stores that verdict for every row. *)
Theorem evaluateClauses_verdict (A : option (gmap num Z)) (head : row)
    (rows1 : table) (r : row) (rows2 : table) :
  Forall (λ r', PC_ID_of head r' ≠ PC_ID_of head r) rows2 →
  evaluateClauses A (Some (head :: rows1 ++ r :: rows2)) !! PC_ID_of head r
  = Some (spec_verdict A (Include_If_List_of head r) (Exclude_If_List_of head r))
  ∧ ∀ result,
      evaluate_row A (findCol_or_first head ["pc"; "id"])
        (findCol head ["include"; "if"; "list"]) (findCol head ["exclude"; "if"; "list"])
        result r
      = <[PC_ID_of head r :=
            spec_verdict A (Include_If_List_of head r) (Exclude_If_List_of head r)]> result.
Proof.
  intros Hlater. split.
  - by apply evaluateClauses_lookup.
  - intros result. apply evaluate_row_spec.
Qed.

Lemma value_neg_sticky (A A' : option (gmap num Z)) (t : num) :
  adds_positive A A' → value A t = -1 → value A' t = -1.
Proof.
  intros Hadd. unfold value. destruct (Hadd t) as [->|[[HA|HA] _]]; [done|..];
    rewrite HA; simpl; lia.
Qed.

Lemma value_pos_sticky (A A' : option (gmap num Z)) (t : num) :
  adds_positive A A' → value A t = 1 → value A' t = 1.
Proof.
  intros Hadd. unfold value. destruct (Hadd t) as [->|[_ ->]]; done.
Qed.

Lemma spec_verdict_sticky (A A' : option (gmap num Z)) (inc exc : list num) :
  adds_positive A A' → spec_verdict A inc exc = -1 → spec_verdict A' inc exc = -1.
Proof.
  intros Hadd Hv.
  assert (Exists (λ t, value A t = -1) inc ∨ Exists (λ t, value A t = 1) exc)
    as [Hinc|Hexc].
  { unfold spec_verdict in Hv. repeat case_bool_decide; auto; done. }
  - unfold spec_verdict. rewrite bool_decide_eq_true_2; [done|].
    eapply Exists_impl; [done|]. intros t. by apply value_neg_sticky.
  - unfold spec_verdict. case_bool_decide; [done|].
    rewrite bool_decide_eq_true_2; [done|].
    eapply Exists_impl; [done|]. intros t. by apply value_pos_sticky.
Qed.

Lemma adds_positive_insert (m : gmap num Z) (k : num) :
  m !! k = None ∨ m !! k = Some 0 →
  adds_positive (Some m) (Some (<[k := 1]> m)).
Proof.
  intros Hk t. simpl. destruct (decide (k = t)) as [<- | Hne].
  - right. by rewrite lookup_insert_eq.
  - left. by rewrite lookup_insert_ne.
Qed.

(** C5. When the mapping [A'] is the mapping [A] with more positive answers,
    a verdict of -1 under [A] is a verdict of -1 under [A']. *)
Theorem negative_verdict_sticky (A A' : option (gmap num Z)) (tbl : option table)
    (pc : num) :
  adds_positive A A' →
  evaluateClauses A tbl !! pc = Some (-1) →
  evaluateClauses A' tbl !! pc = Some (-1).
Proof.
  intros Hadd. destruct tbl as [[|head rows]|]; [done| |done].
  induction rows as [|r rows IH] using rev_ind; [done|].
  rewrite !evaluateClauses_snoc.
  destruct (decide (PC_ID_of head r = pc)) as [<- | Hne].
  - rewrite !lookup_insert_eq. intros [= Hv]. f_equal.
    by apply (spec_verdict_sticky A).
  - by rewrite !lookup_insert_ne.
Qed.

(** C6. A clause whose parsed include and exclude lists are both empty has
    the verdict 1, whatever the mapping: the four rules give 1 on two empty
    lists, and [evaluateClauses] stores 1 under the key of such a row (that
    no later row of the table has). *)
Theorem empty_lists_verdict (A : option (gmap num Z)) (head : row)
    (rows1 : table) (r : row) (rows2 : table) :
  Include_If_List_of head r = [] →
  Exclude_If_List_of head r = [] →
  Forall (λ r', PC_ID_of head r' ≠ PC_ID_of head r) rows2 →
  evaluateClauses A (Some (head :: rows1 ++ r :: rows2)) !! PC_ID_of head r = Some 1.
Proof.
  intros Hinc Hexc Hlater.
  rewrite evaluateClauses_lookup by done. by rewrite Hinc, Hexc.
Qed.

(** *** The tag answer evaluator *)

Lemma MapFrom_snoc {V} (l : list (num * V)) (k : num) (v : V) :
  MapFrom (l ++ [(k, v)]) = <[k := v]> (MapFrom l).
Proof. unfold MapFrom. by rewrite foldl_app. Qed.

(** The index built from the rows holds, for a key, the last row of it. *)
Lemma MapFrom_lookup {V} (key : V → num) (rows : list V) (id : num) :
  MapFrom (map (λ r, (key r, r)) rows) !! id = last (filter (λ r, key r = id) rows).
Proof.
  induction rows as [|r rows IH] using rev_ind; [done|].
  rewrite map_app, filter_app. simpl. rewrite MapFrom_snoc.
  rewrite filter_cons, filter_nil. destruct (decide (key r = id)) as [<- | Hne].
  - by rewrite lookup_insert_eq, last_snoc.
  - by rewrite lookup_insert_ne, app_nil_r.
Qed.

Lemma last_filter_Some {A} (P : A → Prop) `{!∀ x, Decision (P x)} (l : list A) (x : A) :
  last (filter P l) = Some x → x ∈ l ∧ P x.
Proof.
  intros Hlast. apply last_Some_elem_of in Hlast.
  by apply list_elem_of_filter in Hlast as [? ?].
Qed.

Lemma tag_truth_spec (head r : row) (a : cell) :
  tag_truth r (findCol head ["entry"; "category"]) (findCol head ["entry"; "type"]) a
  = spec_truth head r a.
Proof.
  unfold tag_truth, spec_truth.
  repeat case_bool_decide.
  all: done.
Qed.

Lemma evaluateTagsBuildMode_snoc (answers : list (string * cell)) (k : string) (a : cell)
    (head : row) (rows : table) :
  evaluateTagsBuildMode (Some (answers ++ [(k, a)])) (Some (head :: rows))
  = match tag_row head rows (Number (Str k)) with
    | None => evaluateTagsBuildMode (Some answers) (Some (head :: rows))
    | Some r => <[Number (Str k) := spec_truth head r a]>
                  (evaluateTagsBuildMode (Some answers) (Some (head :: rows)))
    end.
Proof.
  unfold evaluateTagsBuildMode. simpl. rewrite foldl_app. simpl.
  unfold answer_step at 1. simpl.
  rewrite (MapFrom_lookup (λ r, Number (at_index r (findCol_or_first head ["tag"; "id"])))).
  unfold tag_row, Tag_ID_of. simpl.
  destruct (last _); [|done]. by rewrite tag_truth_spec.
Qed.

(** C3. [evaluateTagsBuildMode] gives a truth value only to the identifiers
    that are the number of a key of the answer mapping and the identifier of
    a row of the restricted tag table; and to such a tag (an entry that no
    later entry of the same number follows) it gives: for a row whose
    canonical Entry_Category is "bool", 1 for the canonical answer "yes", -1
    for "no" and 0 for any other; for any other row, 1 for an answer that is
    not empty once trimmed and 0 for an empty one. *)
Theorem evaluateTagsBuildMode_spec (answers : option (list (string * cell)))
    (tbl : option table) :
  (∀ id v, evaluateTagsBuildMode answers tbl !! id = Some v →
     ∃ head rows k a r,
       tbl = Some (head :: rows) ∧ (k, a) ∈ default [] answers ∧ Number (Str k) = id
       ∧ r ∈ rows ∧ Tag_ID_of head r = id ∧ tag_row head rows id = Some r
       ∧ v = spec_truth head r a)
  ∧ (∀ head rows ans1 k a ans2 r,
       tbl = Some (head :: rows) →
       answers = Some (ans1 ++ (k, a) :: ans2) →
       Forall (λ kv, Number (Str kv.1) ≠ Number (Str k)) ans2 →
       tag_row head rows (Number (Str k)) = Some r →
       evaluateTagsBuildMode answers tbl !! Number (Str k) = Some (spec_truth head r a)).
Proof.
  split.
  - destruct tbl as [[|head rows]|]; [done| |done].
    assert (evaluateTagsBuildMode answers (Some (head :: rows))
            = evaluateTagsBuildMode (Some (default [] answers)) (Some (head :: rows)))
      as -> by by destruct answers.
    induction (default [] answers) as [|[k a] l IH] using rev_ind; [done|].
    intros id v. rewrite evaluateTagsBuildMode_snoc.
    destruct (tag_row head rows (Number (Str k))) as [r|] eqn:Hrow.
    + destruct (decide (Number (Str k) = id)) as [<- | Hne].
      * rewrite lookup_insert_eq. intros [= <-].
        destruct (last_filter_Some _ _ _ Hrow) as [Hin Hid].
        exists head, rows, k, a, r. rewrite elem_of_app, list_elem_of_singleton.
        naive_solver.
      * rewrite lookup_insert_ne by done. intros Hv.
        destruct (IH id v Hv) as (head' & rows' & k' & a' & r' & ? & ? & ?).
        exists head', rows', k', a', r'. rewrite elem_of_app. naive_solver.
    + intros Hv.
      destruct (IH id v Hv) as (head' & rows' & k' & a' & r' & ? & ? & ?).
      exists head', rows', k', a', r'. rewrite elem_of_app. naive_solver.
  - intros head rows ans1 k a ans2 r -> ->.
    induction ans2 as [|[k2 a2] ans2 IH] using rev_ind; intros Hlater Hrow.
    + by rewrite evaluateTagsBuildMode_snoc, Hrow, lookup_insert_eq.
    + apply Forall_app in Hlater as [Hlater Hk2]. rewrite Forall_singleton in Hk2.
      replace (ans1 ++ (k, a) :: ans2 ++ [(k2, a2)])
        with ((ans1 ++ (k, a) :: ans2) ++ [(k2, a2)]) by by rewrite <- app_assoc.
      rewrite evaluateTagsBuildMode_snoc.
      destruct (tag_row head rows (Number (Str k2))); [|by apply IH].
      rewrite lookup_insert_ne by done. by apply IH.
Qed.

(** *** Sorting *)

Section Sort.
Context {A : Type} (cmp : A → A → num) (P : A → Prop).

Local Abbreviation before := (before cmp).

Lemma sort_insert_perm (x : A) (l : list A) : sort_insert cmp x l ≡ₚ x :: l.
Proof.
  induction l as [|y l IH]; simpl; [done|].
  destruct (num_pos (cmp x y)); [|done].
  by rewrite IH, Permutation_swap.
Qed.

Lemma sort_perm (l : list A) : sort cmp l ≡ₚ l.
Proof.
  induction l as [|x l IH]; simpl; [done|].
  by rewrite sort_insert_perm, IH.
Qed.

(** The comparator is consistent on the values that satisfy [P]. *)
Hypothesis before_total : ∀ x y, P x → P y → before x y ∨ before y x.
Hypothesis before_trans :
  ∀ x y z, P x → P y → P z → before x y → before y z → before x z.

Lemma sort_insert_sorted (x : A) (l : list A) :
  P x → Forall P l → StronglySorted before l →
  StronglySorted before (sort_insert cmp x l).
Proof.
  intros Hx. induction l as [|y l IH]; simpl; intros HP Hsorted.
  - repeat constructor.
  - apply Forall_cons in HP as [Hy HP].
    apply StronglySorted_cons in Hsorted as [Hyl Hsorted].
    destruct (num_pos (cmp x y)) eqn:Hxy.
    + apply StronglySorted_cons. split; [|by apply IH].
      rewrite sort_insert_perm. constructor; [|done].
      destruct (before_total x y Hx Hy) as [Hb|Hb]; [|done].
      unfold before in Hb. congruence.
    + apply StronglySorted_cons. split; [|by apply StronglySorted_cons].
      constructor; [done|].
      rewrite Forall_forall in Hyl, HP. apply Forall_forall. intros z Hz.
      apply (before_trans x y z); auto.
Qed.

Lemma sort_sorted (l : list A) : Forall P l → StronglySorted before (sort cmp l).
Proof.
  induction l as [|x l IH]; simpl; intros HP; [constructor|].
  apply Forall_cons in HP as [Hx HP].
  apply sort_insert_sorted; [done| |by apply IH].
  by rewrite sort_perm.
Qed.

End Sort.

(** A list that is in order already is left as it is. *)
Lemma sort_id {A : Type} (cmp : A → A → num) (l : list A) :
  StronglySorted (before cmp) l → sort cmp l = l.
Proof.
  induction l as [|x l IH]; simpl; intros Hsorted; [done|].
  apply StronglySorted_cons in Hsorted as [Hx Hsorted].
  rewrite IH by done. destruct l as [|y l]; simpl; [done|].
  apply Forall_cons in Hx as [Hxy _]. unfold before in Hxy. by rewrite Hxy.
Qed.

(** *** The order of the finite numbers *)

Lemma Qc_lt_irrefl (x : Qc) : ¬ (x < x)%Qc.
Proof. intros Hlt. by apply (Qclt_not_eq x x). Qed.

Lemma Qc_sub_pos (x y : Qc) : (0 < x - y)%Qc ↔ (y < x)%Qc.
Proof. unfold Qcminus. symmetry. apply Qclt_minus_iff. Qed.

Lemma ascending_before (a b : num) :
  isFinite a = true → isFinite b = true →
  before ascending a b ↔ num_le a b.
Proof.
  destruct a as [| |x|], b as [| |y|]; try done. intros _ _.
  unfold before, ascending, num_le. simpl.
  rewrite bool_decide_eq_false, Qc_sub_pos. split.
  - intros Hnlt. apply Qcnot_lt_le, Qcle_lt_or_eq in Hnlt as [?| ->]; auto.
  - intros [[= ->] | Hlt]; [apply Qc_lt_irrefl|]. by apply Qcle_not_lt, Qclt_le_weak.
Qed.

Lemma sort_ascending_sorted (l : list num) :
  Forall (λ n, isFinite n = true) l → NoDup l →
  StronglySorted num_lt (sort ascending l).
Proof.
  intros Hfin Hnodup.
  assert (StronglySorted (before ascending) (sort ascending l)) as Hsorted.
  { apply (sort_sorted ascending (λ n, isFinite n = true)); [| |done].
    - intros a b Ha Hb. rewrite !ascending_before by done.
      destruct a as [| |x|], b as [| |y|]; try done. unfold num_le. simpl.
      destruct (Qclt_le_dec x y) as [?|Hle]; [auto|].
      apply Qcle_lt_or_eq in Hle as [?| ->]; auto.
    - intros a b c Ha Hb Hc. rewrite !ascending_before by done.
      destruct a as [| |x|], b as [| |y|], c as [| |z|]; try done.
      unfold num_le. simpl. intros [[= ->]|Hxy] [[= ->]|Hyz]; auto.
      right. by apply Qclt_trans with y. }
  assert (Forall (λ n, isFinite n = true) (sort ascending l)) as Hfin'
    by by rewrite sort_perm.
  assert (NoDup (sort ascending l)) as Hnodup' by by rewrite sort_perm.
  induction Hsorted as [|a l' Hsorted IH Ha]; [constructor|].
  apply Forall_cons in Hfin' as [Hfa Hfin']. apply NoDup_cons in Hnodup' as [Hnotin Hnodup'].
  constructor; [by apply IH|].
  rewrite Forall_forall in Ha, Hfin'. apply Forall_forall. intros b Hb.
  destruct (proj1 (ascending_before a b Hfa (Hfin' b Hb)) (Ha b Hb)) as [-> | ?]; done.
Qed.

Lemma sort_ascending_id (l : list num) :
  StronglySorted num_lt l → Forall (λ n, isFinite n = true) l →
  sort ascending l = l.
Proof.
  intros Hsorted Hfin. apply sort_id.
  induction Hsorted as [|a l' Hsorted IH Ha]; [constructor|].
  apply Forall_cons in Hfin as [Hfa Hfin]. constructor; [by apply IH|].
  rewrite Forall_forall in Ha, Hfin. apply Forall_forall. intros b Hb.
  apply ascending_before; [done|by apply Hfin|]. right. by apply Ha.
Qed.

Lemma num_lt_irrefl (a : num) : ¬ num_lt a a.
Proof. destruct a; simpl; auto. apply Qc_lt_irrefl. Qed.

Lemma StronglySorted_num_lt_NoDup (l : list num) : StronglySorted num_lt l → NoDup l.
Proof.
  induction 1 as [|a l Hsorted IH Ha]; constructor; [|done].
  rewrite Forall_forall in Ha. intros Hin. by apply (num_lt_irrefl a), Ha.
Qed.

Lemma filter_all {A} (P : A → Prop) `{!∀ x, Decision (P x)} (l : list A) :
  Forall P l → filter P l = l.
Proof.
  induction 1 as [|x l Hx Hl IH]; [done|].
  by rewrite filter_cons_True, IH.
Qed.

Lemma SetFrom_id (l : list num) : NoDup l → SetFrom l = l.
Proof.
  induction 1 as [|x l Hnotin Hnodup IH]; simpl; [done|].
  rewrite IH. f_equal. apply filter_all.
  apply Forall_forall. intros y Hy ->. done.
Qed.

(** *** The resolver *)

Lemma elem_of_foldl_app {A B} (f : B → list A) (l : list B) (acc : list A) (x : A) :
  x ∈ foldl (λ acc b, acc ++ f b) acc l ↔ x ∈ acc ∨ ∃ b, b ∈ l ∧ x ∈ f b.
Proof.
  revert acc. induction l as [|b l IH]; intros acc; simpl.
  - split; [auto|]. intros [?|(b & Hb & _)]; [done|]. by apply elem_of_nil in Hb.
  - rewrite IH, elem_of_app. split.
    + intros [[?|?]|(b' & ? & ?)]; [auto| |].
      * right. exists b. split; [left|done].
      * right. exists b'. split; [by right|done].
    + intros [?|(b' & Hb' & ?)]; [auto|].
      apply elem_of_cons in Hb' as [-> | ?]; [auto|]. right. by exists b'.
Qed.

Lemma elem_of_uniqNums_Num (l : list num) (n : num) :
  n ∈ uniqNums (map Num l) ↔ isFinite n = true ∧ n ∈ l.
Proof.
  rewrite elem_of_uniqNums. split.
  - intros [? (c & Hc & <-)]. apply list_elem_of_fmap in Hc as (m & -> & ?). done.
  - intros [? ?]. split; [done|]. exists (Num n). split; [|done].
    apply list_elem_of_fmap. by exists n.
Qed.

Lemma elem_of_uniqNums_Str (toks : list string) (n : num) :
  n ∈ uniqNums (map Str toks)
  ↔ isFinite n = true ∧ ∃ tok, tok ∈ toks ∧ Number (Str tok) = n.
Proof.
  rewrite elem_of_uniqNums. split.
  - intros [? (c & Hc & <-)]. apply list_elem_of_fmap in Hc as (tok & -> & ?).
    split; [done|]. by exists tok.
  - intros [? (tok & ? & <-)]. split; [done|]. exists (Str tok). split; [|done].
    apply list_elem_of_fmap. by exists tok.
Qed.

Lemma uniqNums_finite (arr : list cell) : Forall (λ n, isFinite n = true) (uniqNums arr).
Proof. apply Forall_forall. intros n Hn. by apply elem_of_uniqNums in Hn as [? _]. Qed.

(** The normal form of the resolver, sorted and without duplicates. *)
Lemma sort_uniqNums_sorted (arr : list cell) :
  StronglySorted num_lt (sort ascending (uniqNums arr)).
Proof. apply sort_ascending_sorted; [apply uniqNums_finite | apply NoDup_uniqNums]. Qed.

Lemma sort_uniqNums_idem (arr : list cell) :
  let l := sort ascending (uniqNums arr) in
  sort ascending (uniqNums (map Num l)) = l.
Proof.
  intros l.
  assert (Forall (λ n, isFinite n = true) l) as Hfin.
  { unfold l. rewrite sort_perm. apply uniqNums_finite. }
  assert (StronglySorted num_lt l) as Hsorted by apply sort_uniqNums_sorted.
  assert (uniqNums (map Num l) = l) as ->; [|by apply sort_ascending_id].
  unfold uniqNums. rewrite map_map. simpl. rewrite map_id.
  rewrite SetFrom_id by by apply StronglySorted_num_lt_NoDup.
  by apply filter_all.
Qed.

Lemma resolve_loop_elem (vRows : table) (iObj iVType iAssoc : Z) (varList : list string)
    (st : list num * list string) (c : num) :
  c ∈ (foldl (resolve_name vRows iObj iVType iAssoc) st varList).1
  ↔ c ∈ st.1
    ∨ ∃ name r, name ∈ varList ∧ r ∈ variable_matches vRows iObj iVType name
                ∧ c ∈ uniqNums (map Str (parseList (at_index r iAssoc))).
Proof.
  revert st. induction varList as [|name varList IH]; intros st; simpl.
  - split; [auto|]. intros [?|(n & r & Hn & _)]; [done|]. by apply elem_of_nil in Hn.
  - rewrite IH. clear IH.
    assert (c ∈ (resolve_name vRows iObj iVType iAssoc st name).1
            ↔ c ∈ st.1 ∨ ∃ r, r ∈ variable_matches vRows iObj iVType name
                              ∧ c ∈ uniqNums (map Str (parseList (at_index r iAssoc))))
      as ->.
    { unfold resolve_name.
      destruct (variable_matches vRows iObj iVType name) as [|r0 matches] eqn:Hm.
      - simpl. split; [auto|]. intros [?|(r & Hr & _)]; [done|].
        by apply elem_of_nil in Hr.
      - cbn [fst]. apply elem_of_foldl_app. }
    split.
    + intros [[?|(r & ? & ?)]|(n & r & ? & ? & ?)]; [auto| |].
      * right. exists name, r. split; [left|done].
      * right. exists n, r. split; [by right|done].
    + intros [?|(n & r & Hn & ? & ?)]; [auto|].
      apply elem_of_cons in Hn as [-> | ?]; [left; right; by exists r|].
      right. by exists n, r.
Qed.

Lemma collect_loop_elem (clauseMap : gmap num row) (iTags : Z) (clauses : list num)
    (acc : list num) (t : num) :
  t ∈ foldl (collect_tags clauseMap iTags) acc clauses
  ↔ t ∈ acc
    ∨ ∃ pc r, pc ∈ clauses ∧ clauseMap !! pc = Some r
              ∧ t ∈ uniqNums (map Str (parseList (at_index r iTags))).
Proof.
  revert acc. induction clauses as [|pc clauses IH]; intros acc; simpl.
  - split; [auto|]. intros [?|(p & r & Hp & _)]; [done|]. by apply elem_of_nil in Hp.
  - rewrite IH. clear IH. unfold collect_tags at 1.
    destruct (clauseMap !! pc) as [r0|] eqn:Hpc.
    + rewrite elem_of_app. split.
      * intros [[?|?]|(p & r & ? & ? & ?)]; [auto| |].
        -- right. exists pc, r0. split; [left|done].
        -- right. exists p, r. split; [by right|done].
      * intros [?|(p & r & Hp & Hr & ?)]; [auto|].
        apply elem_of_cons in Hp as [-> | ?]; [left; right; congruence|].
        right. by exists p, r.
    + split.
      * intros [?|(p & r & ? & ? & ?)]; [auto|]. right. exists p, r. split; [by right|done].
      * intros [?|(p & r & Hp & Hr & ?)]; [auto|].
        apply elem_of_cons in Hp as [-> | ?]; [congruence|]. right. by exists p, r.
Qed.

(** What the resolver returns for a template that is found, all three
    tables having a header row. *)
Lemma resolver_found (tb : refTables) (name : cell)
    (tHead : row) (tRows : table) (vHead : row) (vRows : table)
    (cHead : row) (cRows : table) (tRow : row) :
  templatesTable tb = Some (tHead :: tRows) →
  variablesTable tb = Some (vHead :: vRows) →
  clausesTable tb = Some (cHead :: cRows) →
  template_of tHead tRows name = Some tRow →
  let res := getTagsAndClausesByTemplateName tb name in
  clausesArray res
  = sort ascending (uniqNums (map Num
      (foldl (resolve_name vRows (findCol vHead ["object"; "name"])
                (findCol vHead ["variable"; "type"])
                (findCol vHead ["associated"; "clause"; "array"]))
             ([], []) (parseList (at_index tRow (findCol tHead ["variable"; "array"])))).1))
  ∧ tagsArray res
    = sort ascending (uniqNums (map Num
        (foldl (collect_tags
                  (MapFrom (map (λ r, (PC_ID_of cHead r, r)) cRows))
                  (findCol cHead ["tags"; "array"]))
               [] (clausesArray res)))).
Proof.
  intros Ht Hv Hc Hfind. unfold getTagsAndClausesByTemplateName.
  rewrite Ht, Hv, Hc. unfold template_of in Hfind. rewrite Hfind.
  destruct (parseList (at_index tRow (findCol tHead ["variable"; "array"])))
    as [|v varList]; [done|].
  destruct (foldl _ _ (v :: varList)) as [clauseIds missingVars]. done.
Qed.

Lemma clausesArray_sorted (tb : refTables) (name : cell) :
  StronglySorted num_lt (clausesArray (getTagsAndClausesByTemplateName tb name)).
Proof.
  unfold getTagsAndClausesByTemplateName.
  repeat (case_match; simpl; try constructor); apply sort_uniqNums_sorted.
Qed.

Lemma tagsArray_sorted (tb : refTables) (name : cell) :
  StronglySorted num_lt (tagsArray (getTagsAndClausesByTemplateName tb name)).
Proof.
  unfold getTagsAndClausesByTemplateName.
  repeat (case_match; simpl; try constructor); apply sort_uniqNums_sorted.
Qed.

Lemma resolver_lists (tb : refTables) (name : cell)
    (tHead : row) (tRows : table) (vHead : row) (vRows : table)
    (cHead : row) (cRows : table) (tRow : row) :
  templatesTable tb = Some (tHead :: tRows) →
  variablesTable tb = Some (vHead :: vRows) →
  clausesTable tb = Some (cHead :: cRows) →
  template_of tHead tRows name = Some tRow →
  let res := getTagsAndClausesByTemplateName tb name in
  (∀ c, c ∈ clausesArray res ↔ clause_of_template tHead tRow vHead vRows c)
  ∧ (∀ t, t ∈ tagsArray res ↔ tag_of_clauses cHead cRows (clausesArray res) t)
  ∧ sort ascending (uniqNums (map Num (clausesArray res))) = clausesArray res
  ∧ sort ascending (uniqNums (map Num (tagsArray res))) = tagsArray res.
Proof.
  intros Ht Hv Hc Hfind res.
  destruct (resolver_found tb name _ _ _ _ _ _ _ Ht Hv Hc Hfind) as [Hclauses Htags].
  fold res in Hclauses, Htags. split; [|split; [|split]].
  - intros c. rewrite Hclauses, sort_perm, elem_of_uniqNums_Num, resolve_loop_elem.
    unfold clause_of_template. simpl. split.
    + intros [Hfin [Hnil|(n & r & Hn & Hr & Hc')]]; [by apply elem_of_nil in Hnil|].
      split; [done|]. apply list_elem_of_filter in Hr as [[? ?] ?].
      apply elem_of_uniqNums_Str in Hc' as [_ (tok & ? & ?)].
      by exists n, r, tok.
    + intros [Hfin (n & r & tok & ? & ? & ? & ? & ? & ?)]. split; [done|]. right.
      exists n, r. split; [done|]. split.
      * by apply list_elem_of_filter.
      * apply elem_of_uniqNums_Str. split; [done|]. by exists tok.
  - intros t. rewrite Htags at 1. rewrite sort_perm, elem_of_uniqNums_Num, collect_loop_elem.
    unfold tag_of_clauses, clause_row. split.
    + intros [Hfin [Hnil|(pc & r & ? & Hr & Ht')]]; [by apply elem_of_nil in Hnil|].
      split; [done|]. rewrite MapFrom_lookup in Hr.
      apply elem_of_uniqNums_Str in Ht' as [_ (tok & ? & ?)].
      by exists pc, r, tok.
    + intros [Hfin (pc & r & tok & ? & ? & ? & ?)]. split; [done|]. right.
      exists pc, r. split; [done|]. split.
      * by rewrite MapFrom_lookup.
      * apply elem_of_uniqNums_Str. split; [done|]. by exists tok.
  - rewrite Hclauses. apply sort_uniqNums_idem.
  - rewrite Htags. apply sort_uniqNums_idem.
Qed.

(** C7. For a template name that no row of the Template table has, whatever
    the three tables are (absent and empty ones included),
    [getTagsAndClausesByTemplateName] returns a result, whose clause and tag
    arrays are empty and whose list of diagnostics is not. *)
Theorem template_not_found (tb : refTables) (name : cell) :
  ¬ template_present tb name →
  ∃ d ds, getTagsAndClausesByTemplateName tb name
          = {| tagsArray := []; clausesArray := []; debug := d :: ds |}.
Proof.
  intros Habsent. unfold getTagsAndClausesByTemplateName, template_present in *.
  destruct (templatesTable tb) as [[|tHead tRows]|]; [by eauto| |by eauto].
  destruct (variablesTable tb) as [[|vHead vRows]|]; [by eauto| |by eauto].
  destruct (clausesTable tb) as [[|cHead cRows]|]; [by eauto| |by eauto].
  destruct (List.find _ tRows) as [tRow|] eqn:Hfind; [|by eauto].
  apply find_some in Hfind as [Hin Hname]. apply bool_decide_eq_true in Hname.
  destruct Habsent. apply Exists_exists. exists tRow. split; [|done].
  by apply list_elem_of_In.
Qed.

(** *** The question scheduler: the completion ratio *)

Lemma filter_fmap_comm {A B} (f : A → B) (P : B → Prop) `{!∀ y, Decision (P y)}
    (l : list A) :
  filter P (f <$> l) = f <$> filter (λ x, P (f x)) l.
Proof.
  induction l as [|x l IH]; [done|]. rewrite fmap_cons, !filter_cons, IH.
  by destruct (decide (P (f x))).
Qed.

(** Every path of the scheduler returns the ratio computed at its start. *)
Lemma ratioCompletedTags_eq (clauseEval : option (gmap num Z)) (tbl : option table)
    (clauses : option (list num)) (A : option (gmap num Z))
    (tags : option (list num)) (info : option (list tagInfo)) :
  ratioCompletedTags (returnNextTagQuestions clauseEval tbl clauses A tags info)
  = if (0 <? length (default [] tags))%nat
    then length_ratio
           (length (filter (λ v, v = 1 ∨ v = -1) (ObjectValues (default ∅ A))))
           (length (default [] tags))
    else Int 0.
Proof. unfold returnNextTagQuestions. by repeat case_match. Qed.

(** The entries of the mapping that are 1 or -1 are as many as the tags of
    the universe with such a value, when the universe has no duplicate and
    holds every such tag. *)
Lemma assigned_count (m : gmap num Z) (universe : list num) :
  NoDup universe →
  (∀ t v, m !! t = Some v → v = 1 ∨ v = -1 → t ∈ universe) →
  length (filter (λ v, v = 1 ∨ v = -1) (ObjectValues m))
  = answered_in (Some m) universe.
Proof.
  intros Hnodup Hin. unfold ObjectValues, answered_in.
  rewrite filter_fmap_comm, length_fmap.
  rewrite <- (length_fmap fst). apply Permutation_length, NoDup_Permutation.
  - apply (sublist_NoDup _ ((map_to_list m).*1)).
    + apply NoDup_fst_map_to_list.
    + apply fmap_sublist, sublist_filter.
  - by apply NoDup_filter.
  - intros t. rewrite list_elem_of_fmap, list_elem_of_filter. simpl. split.
    + intros ([k v] & -> & Hkv). apply list_elem_of_filter in Hkv as [Hv Hkv].
      apply elem_of_map_to_list in Hkv. simpl in *. split; [|by eapply Hin].
      rewrite Hkv. destruct Hv as [-> | ->]; auto.
    + intros [Hv _].
      assert (∃ v, m !! t = Some v ∧ (v = 1 ∨ v = -1)) as (v & Hm & Hd)
        by (destruct Hv as [Hv|Hv]; eauto).
      exists (t, v). split; [done|]. apply list_elem_of_filter. split; [done|].
      by apply elem_of_map_to_list.
Qed.

(** C8 (amended). The completion ratio is the number of entries of the
    tag-truth mapping whose value is 1 or -1, divided by the length of the
    tag universe, and 0 when the universe is empty or absent; it is the
    number of tags of the universe with such a value divided by the size of
    the universe whenever the universe has no duplicate and holds every tag
    to which the mapping gives 1 or -1. *)
Theorem completion_ratio (clauseEval : option (gmap num Z)) (tbl : option table)
    (clauses : option (list num)) (A : option (gmap num Z))
    (tags : option (list num)) (info : option (list tagInfo)) :
  let res := returnNextTagQuestions clauseEval tbl clauses A tags info in
  ratioCompletedTags res
  = (if (0 <? length (default [] tags))%nat
     then length_ratio
            (length (filter (λ v, v = 1 ∨ v = -1) (ObjectValues (default ∅ A))))
            (length (default [] tags))
     else Int 0)
  ∧ (NoDup (default [] tags) →
     (∀ t v, prop A t = Some v → v = 1 ∨ v = -1 → t ∈ default [] tags) →
     ratioCompletedTags res = spec_ratio A (default [] tags)).
Proof.
  intros res. unfold res. split; [apply ratioCompletedTags_eq|].
  intros Hnodup Hin. rewrite ratioCompletedTags_eq. unfold spec_ratio.
  destruct (0 <? length (default [] tags))%nat; [|done]. f_equal.
  destruct A as [m|]; simpl.
  - by apply assigned_count.
  - unfold ObjectValues, answered_in. rewrite map_to_list_empty. simpl.
    symmetry. apply length_zero_iff_nil. (* no tag has a value *)
    induction (default [] tags) as [|t l IH]; [done|].
    rewrite filter_cons_False; [|by intros [?|?]]. apply IH.
    + by apply NoDup_cons in Hnodup as [_ ?].
    + intros t' v Hv. done.
Qed.

(** *** The order of the numbers *)

Lemma num_lt_trans (a b c : num) : num_lt a b → num_lt b c → num_lt a c.
Proof.
  destruct a as [| |x|], b as [| |y|], c as [| |z|]; simpl;
    eauto using Qclt_trans; done.
Qed.

Lemma num_trichotomy (a b : num) :
  a ≠ NaN → b ≠ NaN → num_lt a b ∨ a = b ∨ num_lt b a.
Proof.
  destruct a as [| |x|], b as [| |y|]; simpl; try done; auto. intros _ _.
  destruct (Qclt_le_dec x y) as [?|Hle]; [auto|].
  apply Qcle_lt_or_eq in Hle as [?| ->]; auto.
Qed.

Lemma num_lt_asym (a b : num) : num_lt a b → ¬ num_lt b a.
Proof. intros Hab Hba. by apply (num_lt_irrefl a), (num_lt_trans a b a). Qed.

(** The sign of a difference. *)
Lemma num_sub_pos (a b : num) : num_pos (num_sub a b) = true ↔ num_lt b a.
Proof.
  destruct a as [| |x|], b as [| |y|]; simpl; try done.
  by rewrite bool_decide_eq_true, Qc_sub_pos.
Qed.

Lemma num_sub_truthy (a b : num) :
  a ≠ NaN → b ≠ NaN → num_truthy (num_sub a b) = true ↔ a ≠ b.
Proof.
  destruct a as [| |x|], b as [| |y|]; simpl; try done. intros _ _.
  rewrite bool_decide_eq_true. split.
  - intros Hne [= ->]. apply Hne. unfold Qcminus. apply Qcplus_opp_r.
  - intros Hne Hz. apply Hne. f_equal.
    assert (x = x - y + y)%Qc as -> by ring. by rewrite Hz, Qcplus_0_l.
Qed.

Lemma isFinite_not_NaN (a : num) : isFinite a = true → a ≠ NaN.
Proof. by destruct a. Qed.

(** *** The order of the questions *)

Lemma by_priority_before (a b : tagInfo) :
  comparable a → comparable b → before by_priority a b ↔ question_le a b.
Proof.
  intros [Hpa Hia] [Hpb Hib]. unfold before, by_priority, question_le, num_or.
  fold (priority_of a) (priority_of b) (id_of a) (id_of b).
  apply isFinite_not_NaN in Hia as Hia', Hib as Hib'.
  destruct (num_truthy (num_sub (priority_of a) (priority_of b))) eqn:Htruthy.
  - apply num_sub_truthy in Htruthy; [|done..].
    rewrite <- not_true_iff_false, num_sub_pos. split.
    + intros Hnlt. destruct (num_trichotomy (priority_of a) (priority_of b))
        as [?|[?|?]]; auto; done.
    + intros [Hlt|[? _]]; [by apply num_lt_asym|done].
  - apply not_true_iff_false in Htruthy. rewrite num_sub_truthy in Htruthy by done.
    assert (priority_of a = priority_of b) as Heq
      by (destruct (decide (priority_of a = priority_of b)); [done|by destruct Htruthy]).
    rewrite <- not_true_iff_false, num_sub_pos, Heq. unfold num_le. split.
    + intros Hnlt. right. split; [done|].
      destruct (num_trichotomy (id_of a) (id_of b)) as [?|[?|?]]; auto; done.
    + intros [Hlt|[_ [-> | Hlt]]].
      * by apply num_lt_irrefl in Hlt.
      * apply num_lt_irrefl.
      * by apply num_lt_asym.
Qed.

Lemma question_le_total (a b : tagInfo) :
  comparable a → comparable b → question_le a b ∨ question_le b a.
Proof.
  intros [Hpa Hia] [Hpb Hib]. unfold question_le, num_le.
  apply isFinite_not_NaN in Hia, Hib.
  destruct (num_trichotomy (priority_of a) (priority_of b)) as [?|[Heq|?]]; auto.
  rewrite Heq.
  destruct (num_trichotomy (id_of a) (id_of b)) as [?|[?|?]]; auto.
Qed.

Lemma question_le_trans (a b c : tagInfo) :
  question_le a b → question_le b c → question_le a c.
Proof.
  unfold question_le, num_le.
  intros [Hab|[Hab Hiab]] [Hbc|[Hbc Hibc]].
  - left. by apply (num_lt_trans _ (priority_of b)).
  - left. by rewrite <- Hbc.
  - left. by rewrite Hab.
  - right. split; [congruence|].
    destruct Hiab as [-> | Hiab]; [done|]. destruct Hibc as [<- | Hibc]; [auto|].
    right. by apply (num_lt_trans _ (id_of b)).
Qed.

Lemma sort_by_priority_sorted (l : list tagInfo) :
  Forall comparable l → StronglySorted question_le (sort by_priority l).
Proof.
  intros Hl.
  assert (StronglySorted (before by_priority) (sort by_priority l)) as Hsorted.
  { apply (sort_sorted by_priority comparable); [| |done].
    - intros a b Ha Hb. rewrite !by_priority_before by done.
      by apply question_le_total.
    - intros a b c Ha Hb Hc. rewrite !by_priority_before by done.
      apply question_le_trans. }
  assert (Forall comparable (sort by_priority l)) as Hl' by by rewrite sort_perm.
  induction Hsorted as [|a l' Hsorted IH Ha]; [constructor|].
  apply Forall_cons in Hl' as [Hca Hl']. constructor; [by apply IH|].
  rewrite Forall_forall in Ha, Hl'. apply Forall_forall. intros b Hb.
  apply by_priority_before; auto.
Qed.

(** *** The question scheduler: status and questions *)

Lemma pending_spec (head : row) (rows : table) (A : option (gmap num Z))
    (U : list num) (t : num) :
  t ∈ pending_tags A
        (unresolved_tags (MapFrom (map (λ r, (PC_ID_of head r, r)) rows))
           (findCol head ["tags"; "array"]) U)
  ↔ tag_of_clauses head rows U t ∧ (prop A t = None ∨ prop A t = Some 0).
Proof.
  unfold pending_tags, unresolved_tags, tag_of_clauses, clause_row.
  rewrite list_elem_of_filter, elem_of_uniqNums_Num, collect_loop_elem.
  split.
  - intros [Hv [Hfin [Hnil|(pc & r & ? & Hr & Ht)]]]; [by apply elem_of_nil in Hnil|].
    split; [|done]. split; [done|]. rewrite MapFrom_lookup in Hr.
    apply elem_of_uniqNums_Str in Ht as [_ (tok & ? & ?)]. by exists pc, r, tok.
  - intros [[Hfin (pc & r & tok & ? & ? & ? & ?)] Hv]. split; [done|]. split; [done|].
    right. exists pc, r. split; [done|]. split; [by rewrite MapFrom_lookup|].
    apply elem_of_uniqNums_Str. split; [done|]. by exists tok.
Qed.

Lemma pending_NoDup (A : option (gmap num Z)) (ids : list num) :
  NoDup (pending_tags A ids).
Proof. apply NoDup_filter, NoDup_uniqNums. Qed.

Lemma pending_finite (A : option (gmap num Z)) (ids : list num) :
  Forall (λ n, isFinite n = true) (pending_tags A ids).
Proof.
  apply Forall_forall. intros n Hn.
  apply list_elem_of_filter in Hn as [_ Hn]. by apply elem_of_uniqNums in Hn as [? _].
Qed.

(** The question of a pending tag has the identifier of the tag. *)
Lemma question_of_id (info : list tagInfo) (id : num) :
  id_of (question_of (MapFrom (map (λ t, (Number (Tag_ID t), t)) info)) id) = id.
Proof.
  unfold question_of. rewrite (MapFrom_lookup (λ t, Number (Tag_ID t))).
  destruct (last _) as [t|] eqn:Hlast; [|done].
  by apply last_filter_Some in Hlast as [_ ?].
Qed.

Lemma question_of_ids (info : list tagInfo) (ids : list num) :
  id_of <$> map (question_of (MapFrom (map (λ t, (Number (Tag_ID t), t)) info))) ids = ids.
Proof.
  induction ids as [|id ids IH]; [done|].
  simpl. f_equal; [apply question_of_id | apply IH].
Qed.

Lemma question_of_comparable (info : list tagInfo) (id : num) :
  Forall (λ q, priority_of q ≠ NaN) info → isFinite id = true →
  comparable (question_of (MapFrom (map (λ t, (Number (Tag_ID t), t)) info)) id).
Proof.
  intros Hinfo Hfin. split; [|by rewrite question_of_id].
  unfold question_of. rewrite (MapFrom_lookup (λ t, Number (Tag_ID t))).
  destruct (last _) as [t|] eqn:Hlast; [|done].
  apply last_filter_Some in Hlast as [Hin _]. rewrite Forall_forall in Hinfo. auto.
Qed.

(** Nothing is dropped from shaped tags whose identifiers are finite and
    distinct, and new to the loop. *)
Lemma dedupe_loop_id (seen : list num) (l : list tagInfo) :
  NoDup (id_of <$> l) → Forall (λ q, isFinite (id_of q) = true) l →
  Forall (λ q, id_of q ∉ seen) l →
  dedupe_loop seen l = l.
Proof.
  revert seen. induction l as [|q l IH]; intros seen Hnodup Hfin Hseen; [done|].
  rewrite fmap_cons in Hnodup. apply NoDup_cons in Hnodup as [Hq Hnodup].
  apply Forall_cons in Hfin as [Hfq Hfin]. apply Forall_cons in Hseen as [Hsq Hseen].
  simpl. fold (id_of q). rewrite Hfq. simpl.
  rewrite bool_decide_eq_false_2 by done. f_equal. apply IH; [done..|].
  rewrite Forall_forall in Hseen. apply Forall_forall. intros q' Hq'.
  rewrite elem_of_cons. intros [Heq|?]; [|by apply (Hseen q')].
  apply Hq. rewrite <- Heq. apply list_elem_of_fmap. by exists q'.
Qed.

(** The scheduler on a clause table that has a header row. *)
Lemma returnNextTagQuestions_table (clauseEval : option (gmap num Z))
    (head : row) (rows : table) (clauses : option (list num))
    (A : option (gmap num Z)) (tags : option (list num)) (info : option (list tagInfo)) :
  let res := returnNextTagQuestions clauseEval (Some (head :: rows)) clauses A tags info in
  let pending :=
    pending_tags A
      (unresolved_tags (MapFrom (map (λ r, (PC_ID_of head r, r)) rows))
         (findCol head ["tags"; "array"]) (unresolved clauseEval clauses)) in
  (unresolved clauseEval clauses = [] ∨ pending = []
   → status res = "done" ∧ nextQuestions res = [])
  ∧ (unresolved clauseEval clauses ≠ [] → pending ≠ [] →
     status res = "ask"
     ∧ nextQuestions res
       = sort by_priority
           (map (question_of (MapFrom (map (λ t, (Number (Tag_ID t), t))
                                           (default [] info)))) pending)).
Proof.
  intros res pending. unfold res, returnNextTagQuestions.
  fold (unresolved clauseEval clauses). unfold PC_ID_of in pending. fold pending.
  destruct (unresolved clauseEval clauses) as [|u U] eqn:HU.
  { split; [done|]. by intros []. }
  assert (NoDup pending) as Hnodup by apply pending_NoDup.
  assert (Forall (λ n, isFinite n = true) pending) as Hfin by apply pending_finite.
  clearbody pending. destruct pending as [|p P].
  { split; [done|]. by intros _ []. }
  split; [by intros [?|?]|]. intros _ _. split; [done|]. cbn [nextQuestions].
  f_equal. unfold dedupeByTagId. cbn [default].
  set (infoById := MapFrom _). set (pending := p :: P) in *.
  apply dedupe_loop_id.
  - unfold infoById. by rewrite question_of_ids.
  - apply Forall_fmap. eapply Forall_impl; [exact Hfin|]. intros x Hx. simpl.
    unfold infoById. by rewrite question_of_id.
  - apply Forall_forall. intros q _. apply not_elem_of_nil.
Qed.

Lemma returnNextTagQuestions_no_table (clauseEval : option (gmap num Z))
    (tbl : option table) (clauses : option (list num))
    (A : option (gmap num Z)) (tags : option (list num)) (info : option (list tagInfo)) :
  tbl = None ∨ tbl = Some [] →
  let res := returnNextTagQuestions clauseEval tbl clauses A tags info in
  status res = (if decide (unresolved clauseEval clauses = []) then "done" else "ask")
  ∧ nextQuestions res = [].
Proof.
  intros Htbl res. unfold res, returnNextTagQuestions.
  fold (unresolved clauseEval clauses).
  destruct (unresolved clauseEval clauses) as [|u U]; [done|].
  by destruct Htbl as [-> | ->].
Qed.

(** The questions are in order for every input, provided no shaped tag has
    a priority that is not a number. *)
Lemma nextQuestions_sorted (clauseEval : option (gmap num Z))
    (tbl : option table) (clauses : option (list num))
    (A : option (gmap num Z)) (tags : option (list num)) (info : option (list tagInfo)) :
  Forall (λ q, priority_of q ≠ NaN) (default [] info) →
  StronglySorted question_le
    (nextQuestions (returnNextTagQuestions clauseEval tbl clauses A tags info)).
Proof.
  intros Hinfo. destruct tbl as [[|head rows]|].
  - rewrite (proj2 (returnNextTagQuestions_no_table _ (Some []) _ _ _ _ (or_intror eq_refl))).
    constructor.
  - destruct (returnNextTagQuestions_table clauseEval head rows clauses A tags info)
      as [Hdone Hask].
    set (pending := pending_tags _ _) in *.
    destruct (decide (unresolved clauseEval clauses = [])) as [HU|HU].
    { rewrite (proj2 (Hdone (or_introl HU))). constructor. }
    destruct (decide (pending = [])) as [HP|HP].
    { rewrite (proj2 (Hdone (or_intror HP))). constructor. }
    rewrite (proj2 (Hask HU HP)). apply sort_by_priority_sorted.
    apply Forall_fmap. eapply Forall_impl; [apply pending_finite|].
    intros id Hid. by apply question_of_comparable.
  - rewrite (proj2 (returnNextTagQuestions_no_table _ None _ _ _ _ (or_introl eq_refl))).
    constructor.
Qed.


(** C4 (amended). With a clause table that has a header row, the status is
    "done" exactly when no clause of the universe has verdict 0 or no tag is
    pending; and the status "ask" comes with a pending tag and with a list of
    questions that is not empty, has one question for each pending tag (so
    pairwise distinct identifiers) and, when no shaped tag has a priority
    that is not a number, is in order of priority, a missing priority last,
    then of identifier.  With an absent or empty clause table there is no
    question, and the status is "done" exactly when no clause has verdict 0,
    and "ask" otherwise. *)
Theorem scheduler_invariant (clauseEval : option (gmap num Z))
    (tbl : option table) (clauses : option (list num))
    (A : option (gmap num Z)) (tags : option (list num)) (info : option (list tagInfo)) :
  let res := returnNextTagQuestions clauseEval tbl clauses A tags info in
  (∀ head rows, tbl = Some (head :: rows) →
     (status res = "done"
      ↔ unresolved clauseEval clauses = [] ∨ ∀ t, ¬ is_pending tbl clauseEval clauses A t)
     ∧ (status res = "ask" →
        (∃ t, is_pending tbl clauseEval clauses A t)
        ∧ nextQuestions res ≠ []
        ∧ NoDup (id_of <$> nextQuestions res)
        ∧ (∀ t, t ∈ id_of <$> nextQuestions res ↔ is_pending tbl clauseEval clauses A t)
        ∧ (Forall (λ q, priority_of q ≠ NaN) (default [] info) →
           StronglySorted question_le (nextQuestions res))))
  ∧ (tbl = None ∨ tbl = Some [] →
     (status res = "done" ↔ unresolved clauseEval clauses = [])
     ∧ (status res = "ask" ↔ unresolved clauseEval clauses ≠ [])
     ∧ nextQuestions res = []).
Proof.
  intros res. split.
  - intros head rows ->.
    destruct (returnNextTagQuestions_table clauseEval head rows clauses A tags info)
      as [Hdone Hask]. fold res in Hdone, Hask.
    set (pending := pending_tags _ _) in *.
    assert (∀ t, t ∈ pending
                 ↔ is_pending (Some (head :: rows)) clauseEval clauses A t) as Hpending
      by (intros t; apply pending_spec).
    destruct (decide (unresolved clauseEval clauses = [])) as [HU|HU].
    { destruct (Hdone (or_introl HU)) as [Hst _]. rewrite Hst. split; [|done]. tauto. }
    destruct (decide (pending = [])) as [HP|HP].
    { destruct (Hdone (or_intror HP)) as [Hst _]. rewrite Hst. split; [|done].
      split; [|done]. intros _. right. intros t Ht. apply Hpending in Ht.
      rewrite HP in Ht. by apply elem_of_nil in Ht. }
    destruct (Hask HU HP) as [Hst Hq]. rewrite Hst.
    assert (id_of <$> nextQuestions res ≡ₚ pending) as Hperm.
    { rewrite Hq, sort_perm. by rewrite question_of_ids. }
    destruct pending as [|p P] eqn:Hpeq; [done|].
    split.
    + split; [done|]. intros [?|Hnone]; [done|].
      destruct (Hnone p). apply Hpending. by left.
    + intros _. split; [exists p; apply Hpending; by left|].
      split; [intros Hnil; rewrite Hnil in Hperm; by apply Permutation_nil_cons in Hperm|].
      split; [rewrite Hperm, <- Hpeq; apply pending_NoDup|].
      split; [intros t; by rewrite Hperm|].
      apply nextQuestions_sorted.
  - intros Htbl.
    destruct (returnNextTagQuestions_no_table clauseEval tbl clauses A tags info Htbl)
      as [Hst Hq]. fold res in Hst, Hq. rewrite Hst.
    by destruct (decide (unresolved clauseEval clauses = [])).
Qed.

(** *** Priorities *)



(** ** The remaining code of the evaluator *)

(** *** [uniqNums] *)

Lemma SetFrom_sublist (l : list num) : SetFrom l `sublist_of` l.
Proof.
  induction l as [|x l IH]; simpl; [done|].
  apply sublist_skip. by etrans; [apply sublist_filter|].
Qed.

Lemma SetFrom_snoc (l : list num) (x : num) :
  SetFrom (l ++ [x]) = SetFrom l ++ (if decide (x ∈ l) then [] else [x]).
Proof.
  induction l as [|y l IH].
  - simpl. destruct (decide (x ∈ [])) as [Hin|_]; [|done]. by apply elem_of_nil in Hin.
  - cbn [app SetFrom]. rewrite IH, filter_app. cbn [app]. f_equal. f_equal.
    destruct (decide (x ∈ l)) as [Hin|Hout];
      destruct (decide (x ∈ y :: l)) as [Hin'|Hout']; try done.
    + destruct Hout'. by apply list_elem_of_further.
    + apply elem_of_cons in Hin' as [->|?]; [|done].
      by rewrite filter_cons_False by naive_solver.
    + rewrite filter_cons_True; [done|]. intros ->. apply Hout', list_elem_of_here.
Qed.

(** [uniqNums] reads the array from left to right and appends a finite
    number it has not yet met. *)
Lemma uniqNums_snoc (arr : list cell) (c : cell) :
  uniqNums (arr ++ [c])
  = uniqNums arr
    ++ (if decide (isFinite (Number c) = true ∧ Number c ∉ uniqNums arr)
        then [Number c] else []).
Proof.
  unfold uniqNums. rewrite map_app. simpl. rewrite SetFrom_snoc, filter_app. f_equal.
  destruct (decide (Number c ∈ map Number arr)) as [Hin|Hout].
  - rewrite decide_False; [done|]. intros [Hfin Hnot]. apply Hnot.
    apply list_elem_of_filter. split; [done|]. by apply elem_of_SetFrom.
  - destruct (isFinite (Number c)) eqn:Hfin.
    + rewrite filter_cons_True by done. rewrite decide_True; [done|].
      split; [done|]. rewrite list_elem_of_filter, elem_of_SetFrom. tauto.
    + rewrite filter_cons_False by (by rewrite Hfin). rewrite decide_False; [done|].
      by intros [? _].
Qed.

(** Of two numbers of the result, the one that comes first occurs in the
    array before every occurrence of the other. *)
Lemma uniqNums_order (arr : list cell) (i j : nat) (n m : num) :
  uniqNums arr !! i = Some n → uniqNums arr !! j = Some m → (i < j)%nat →
  ∃ k, map Number arr !! k = Some n
       ∧ ∀ k', map Number arr !! k' = Some m → (k < k')%nat.
Proof.
  revert i j n m. induction arr as [|c arr IH] using rev_ind; intros i j n m Hi Hj Hij.
  { done. }
  rewrite uniqNums_snoc in Hi, Hj. rewrite map_app. simpl.
  assert (∀ k' x, (map Number arr ++ [Number c]) !! k' = Some x →
                  (k' < length arr)%nat ∧ map Number arr !! k' = Some x
                  ∨ k' = length arr ∧ x = Number c) as Hsplit.
  { intros k' x Hk'. destruct (decide (k' < length arr)%nat) as [Hlt|Hge].
    - left. split; [done|]. by rewrite lookup_app_l in Hk' by (by rewrite length_map).
    - right. rewrite lookup_app_r in Hk' by (rewrite length_map; lia).
      rewrite length_map in Hk'. destruct (k' - length arr)%nat as [|d] eqn:Hd; [|done].
      simpl in Hk'. split; [lia|congruence]. }
  destruct (decide (j < length (uniqNums arr))%nat) as [Hlt|Hge].
  - rewrite lookup_app_l in Hi, Hj by lia.
    destruct (IH i j n m Hi Hj Hij) as (k & Hk & Hfirst).
    pose proof (lookup_lt_Some _ _ _ Hk) as Hklt. rewrite length_map in Hklt.
    exists k. split; [by rewrite lookup_app_l by (by rewrite length_map)|].
    intros k' Hk'. destruct (Hsplit k' m Hk') as [[_ Hin]|[-> _]]; [by apply Hfirst|done].
  - rewrite lookup_app_r in Hj by lia.
    destruct (decide (isFinite (Number c) = true ∧ Number c ∉ uniqNums arr))
      as [[Hfin Hnew]|_]; [|by destruct (j - length (uniqNums arr))%nat].
    destruct (j - length (uniqNums arr))%nat as [|d] eqn:Hd; [|done].
    simpl in Hj. injection Hj as <-.
    rewrite lookup_app_l in Hi by lia.
    assert (n ∈ map Number arr) as Hn.
    { apply list_elem_of_lookup_2 in Hi. apply elem_of_uniqNums in Hi as [_ (c' & ? & <-)].
      apply list_elem_of_fmap. by exists c'. }
    apply list_elem_of_lookup_1 in Hn as [k Hk].
    pose proof (lookup_lt_Some _ _ _ Hk) as Hklt. rewrite length_map in Hklt.
    exists k. split; [by rewrite lookup_app_l by (by rewrite length_map)|].
    intros k' Hk'. destruct (Hsplit k' _ Hk') as [[_ Hin]|[-> _]]; [|done].
    destruct Hnew. apply elem_of_uniqNums. split; [done|].
    apply list_elem_of_lookup_2, list_elem_of_fmap in Hin as (c' & ? & ?). by exists c'.
Qed.

(** X1. [uniqNums] returns the finite numbers of the array, each once, in the
    order of their first occurrence: it reads the array from left to right
    and appends a finite number it has not yet met, so that of two numbers of
    the result the one that comes first occurs in the array before every
    occurrence of the other.  Applied to its own result it returns it
    unchanged. *)
Theorem uniqNums_spec (arr : list cell) :
  NoDup (uniqNums arr)
  ∧ Forall (λ n, isFinite n = true) (uniqNums arr)
  ∧ (∀ n, n ∈ uniqNums arr ↔ isFinite n = true ∧ ∃ c, c ∈ arr ∧ Number c = n)
  ∧ uniqNums arr `sublist_of` map Number arr
  ∧ uniqNums (map Num (uniqNums arr)) = uniqNums arr
  ∧ (∀ c, uniqNums (arr ++ [c])
          = uniqNums arr
            ++ (if decide (isFinite (Number c) = true ∧ Number c ∉ uniqNums arr)
                then [Number c] else []))
  ∧ (∀ (i j : nat) (n m : num),
       uniqNums arr !! i = Some n → uniqNums arr !! j = Some m → (i < j)%nat →
       ∃ k, map Number arr !! k = Some n
            ∧ ∀ k', map Number arr !! k' = Some m → (k < k')%nat).
Proof.
  split; [apply NoDup_uniqNums|]. split; [apply uniqNums_finite|].
  split; [apply elem_of_uniqNums|]. split; [|split; [|split]].
  - unfold uniqNums. etrans; [apply sublist_filter|apply SetFrom_sublist].
  - unfold uniqNums at 1. rewrite map_map. simpl. rewrite map_id.
    rewrite SetFrom_id by apply NoDup_uniqNums.
    apply filter_all, uniqNums_finite.
  - apply uniqNums_snoc.
  - apply uniqNums_order.
Qed.

(** *** [dedupeByTagId] *)

Lemma dedupe_loop_sublist (seen : list num) (l : list tagInfo) :
  dedupe_loop seen l `sublist_of` l.
Proof.
  revert seen. induction l as [|t l IH]; intros seen; simpl; [done|].
  destruct (negb _); [by apply sublist_cons|].
  case_bool_decide; [by apply sublist_cons|by apply sublist_skip].
Qed.

Lemma dedupe_loop_elem (seen : list num) (l : list tagInfo) (t : tagInfo) :
  t ∈ dedupe_loop seen l → isFinite (id_of t) = true ∧ id_of t ∉ seen.
Proof.
  revert seen. induction l as [|x l IH]; intros seen; simpl.
  - intros Hin. by apply elem_of_nil in Hin.
  - fold (id_of x). destruct (isFinite (id_of x)) eqn:Hfin; simpl; [|by apply IH].
    case_bool_decide as Hseen; [by apply IH|].
    rewrite elem_of_cons. intros [-> | Hin]; [done|].
    apply IH in Hin as [? Hnot]. split; [done|]. set_solver.
Qed.

Lemma dedupe_loop_NoDup (seen : list num) (l : list tagInfo) :
  NoDup (id_of <$> dedupe_loop seen l).
Proof.
  revert seen. induction l as [|x l IH]; intros seen; simpl; [constructor|].
  fold (id_of x). destruct (isFinite (id_of x)); simpl; [|by apply IH].
  case_bool_decide; [by apply IH|]. rewrite fmap_cons. apply NoDup_cons. split; [|apply IH].
  intros Hin. apply list_elem_of_fmap in Hin as (t & Heq & Hin).
  apply dedupe_loop_elem in Hin as [_ Hnot]. rewrite Heq in Hnot. set_solver.
Qed.

Lemma dedupe_loop_first (seen : list num) (l1 : list tagInfo) (t : tagInfo)
    (l2 : list tagInfo) :
  isFinite (id_of t) = true → id_of t ∉ seen →
  Forall (λ x, id_of x ≠ id_of t) l1 →
  t ∈ dedupe_loop seen (l1 ++ t :: l2).
Proof.
  intros Hfin. revert seen.
  induction l1 as [|x l1 IH]; intros seen Hseen Hl1; simpl.
  - fold (id_of t). rewrite Hfin. simpl. rewrite bool_decide_eq_false_2 by done. by left.
  - apply Forall_cons in Hl1 as [Hx Hl1]. fold (id_of x).
    destruct (isFinite (id_of x)); simpl; [|by apply IH].
    case_bool_decide; [by apply IH|]. right. apply IH; [|done]. set_solver.
Qed.

(** X2. [dedupeByTagId] keeps the tags in their order ([sublist]), keeps only
    tags whose identifier is a finite number, keeps no two tags of one
    identifier, keeps the first tag of every finite identifier, and returns
    its own result unchanged. *)
Theorem dedupeByTagId_spec (arr : option (list tagInfo)) :
  dedupeByTagId arr `sublist_of` default [] arr
  ∧ Forall (λ t, isFinite (id_of t) = true) (dedupeByTagId arr)
  ∧ NoDup (id_of <$> dedupeByTagId arr)
  ∧ (∀ l1 t l2, default [] arr = l1 ++ t :: l2 → isFinite (id_of t) = true →
                Forall (λ x, id_of x ≠ id_of t) l1 → t ∈ dedupeByTagId arr)
  ∧ dedupeByTagId (Some (dedupeByTagId arr)) = dedupeByTagId arr.
Proof.
  unfold dedupeByTagId.
  assert (Forall (λ t, isFinite (id_of t) = true) (dedupe_loop [] (default [] arr)))
    as Hfin.
  { apply Forall_forall. intros t Ht. by apply dedupe_loop_elem in Ht as [? _]. }
  split; [apply dedupe_loop_sublist|]. split; [done|].
  split; [apply dedupe_loop_NoDup|]. split.
  - intros l1 t l2 -> Ht Hl1. apply dedupe_loop_first; [done| |done]. apply not_elem_of_nil.
  - simpl. apply dedupe_loop_id; [apply dedupe_loop_NoDup|done|].
    apply Forall_forall. intros t _. apply not_elem_of_nil.
Qed.

(** *** [evaluateClauses] on a whole table *)

Lemma spec_verdict_range (A : option (gmap num Z)) (inc exc : list num) :
  spec_verdict A inc exc = -1 ∨ spec_verdict A inc exc = 0 ∨ spec_verdict A inc exc = 1.
Proof. unfold spec_verdict. repeat case_bool_decide; auto. Qed.

Lemma evaluateClauses_last (A : option (gmap num Z)) (head : row) (rows : table)
    (pc : num) :
  evaluateClauses A (Some (head :: rows)) !! pc
  = (λ r, spec_verdict A (Include_If_List_of head r) (Exclude_If_List_of head r))
      <$> clause_row head rows pc.
Proof.
  unfold clause_row. induction rows as [|r rows IH] using rev_ind; [done|].
  rewrite evaluateClauses_snoc, filter_app, filter_cons, filter_nil.
  destruct (decide (PC_ID_of head r = pc)) as [<- | Hne].
  - by rewrite lookup_insert_eq, last_snoc.
  - by rewrite lookup_insert_ne, app_nil_r.
Qed.

(** X3. The object [evaluateClauses] returns has an entry exactly for the
    numbers that are the PC_ID of a row; the entry is the verdict of the last
    row of that PC_ID, and is -1, 0 or 1.  Without a table it has no entry. *)
Theorem evaluateClauses_table (A : option (gmap num Z)) :
  (∀ head rows pc,
     evaluateClauses A (Some (head :: rows)) !! pc
     = (λ r, spec_verdict A (Include_If_List_of head r) (Exclude_If_List_of head r))
         <$> clause_row head rows pc)
  ∧ (∀ head rows pc,
       is_Some (evaluateClauses A (Some (head :: rows)) !! pc)
       ↔ ∃ r, r ∈ rows ∧ PC_ID_of head r = pc)
  ∧ (∀ tbl pc v, evaluateClauses A tbl !! pc = Some v → v = -1 ∨ v = 0 ∨ v = 1)
  ∧ evaluateClauses A None = ∅ ∧ evaluateClauses A (Some []) = ∅.
Proof.
  split; [apply evaluateClauses_last|]. split; [|split; [|done]].
  - intros head rows pc. rewrite evaluateClauses_last, fmap_is_Some. unfold clause_row.
    split.
    + intros [r Hr]. apply last_filter_Some in Hr as [? ?]. by exists r.
    + intros (r & Hin & Hpc).
      destruct (last (filter (λ r, PC_ID_of head r = pc) rows)) as [r'|] eqn:Hlast; [done|].
      apply last_None in Hlast.
      assert (r ∈ filter (λ r, PC_ID_of head r = pc) rows) as Hr
        by by apply list_elem_of_filter.
      rewrite Hlast in Hr. by apply elem_of_nil in Hr.
  - intros [[|head rows]|] pc v; [done| |done].
    rewrite evaluateClauses_last. destruct (clause_row head rows pc); [|done].
    intros [= <-]. apply spec_verdict_range.
Qed.

(** *** Verdicts that are final *)

Lemma spec_verdict_final (A A' : option (gmap num Z)) (inc exc : list num) :
  answers_more A A' → spec_verdict A inc exc ≠ 0 →
  spec_verdict A' inc exc = spec_verdict A inc exc.
Proof.
  intros Hmore Hv.
  assert (∀ t v, v ≠ 0 → value A t = v → value A' t = v) as Hkeep.
  { intros t v Hv0 HA. unfold value in *.
    destruct (Hmore t) as [-> |[HN|HN]]; [done|..]; rewrite HN in HA; simpl in HA; done. }
  unfold spec_verdict in *.
  destruct (decide (Exists (λ t, value A t = -1) inc)) as [Hi|Hi].
  { rewrite !bool_decide_eq_true_2; [done..|].
    eapply Exists_impl; [done|]. intros t. by apply Hkeep. }
  rewrite (bool_decide_eq_false_2 _ Hi) in Hv |- *.
  destruct (decide (Exists (λ t, value A t = 1) exc)) as [He|He].
  { assert (Exists (λ t, value A' t = 1) exc) as He'
      by (eapply Exists_impl; [done|]; intros t; by apply Hkeep).
    rewrite (bool_decide_eq_true_2 _ He), (bool_decide_eq_true_2 _ He').
    destruct (bool_decide (Exists (λ t, value A' t = -1) inc)); reflexivity. }
  rewrite (bool_decide_eq_false_2 _ He) in Hv |- *.
  case_bool_decide as Hall; [|done]. destruct Hall as [Hinc Hexc].
  assert (Forall (λ t, value A' t = 1) inc) as Hinc'
    by (eapply Forall_impl; [done|]; intros t; by apply Hkeep).
  assert (Forall (λ t, value A' t = -1) exc) as Hexc'
    by (eapply Forall_impl; [done|]; intros t; by apply Hkeep).
  rewrite bool_decide_eq_false_2.
  - rewrite bool_decide_eq_false_2.
    + by rewrite bool_decide_eq_true_2.
    + intros Hex. apply Exists_exists in Hex as (t & Ht & Hvt).
      rewrite Forall_forall in Hexc'. rewrite (Hexc' t Ht) in Hvt. done.
  - intros Hex. apply Exists_exists in Hex as (t & Ht & Hvt).
    rewrite Forall_forall in Hinc'. rewrite (Hinc' t Ht) in Hvt. done.
Qed.

(** X4. A verdict of 1 or -1 is final: when the only tags whose value
    changes are tags that had no value or the value 0, whatever their new
    value, every clause with such a verdict keeps it. *)
Theorem resolved_verdict_final (A A' : option (gmap num Z)) (tbl : option table)
    (pc : num) (v : Z) :
  answers_more A A' →
  evaluateClauses A tbl !! pc = Some v → v ≠ 0 →
  evaluateClauses A' tbl !! pc = Some v.
Proof.
  intros Hmore. destruct tbl as [[|head rows]|]; [done| |done].
  rewrite !evaluateClauses_last. destruct (clause_row head rows pc) as [r|]; [|done].
  simpl. intros [= <-] Hv. f_equal. by apply spec_verdict_final.
Qed.

(** *** [filterTableByIds] *)

Lemma filter_none {A} (P : A → Prop) `{!∀ x, Decision (P x)} (l : list A) :
  Forall (λ x, ¬ P x) l → filter P l = [].
Proof.
  induction 1 as [|x l Hx Hl IH]; [done|].
  by rewrite filter_cons_False.
Qed.

(** X5. Filtering a filtered table again by the same identifiers changes
    nothing, and the filtered table is not longer than the table. *)
Theorem filterTableByIds_idempotent (aoa : option table) (ids : option (list cell)) :
  filterTableByIds (Some (filterTableByIds aoa ids)) ids = filterTableByIds aoa ids
  ∧ (length (filterTableByIds aoa ids) ≤ length (default [] aoa))%nat.
Proof.
  destruct aoa as [[|head rows]|]; [done| |done].
  destruct ids as [[|id ids]|]; simpl; [split; [done|lia]| |split; [done|lia]].
  split.
  - f_equal. rewrite list_filter_filter. apply list_filter_iff. tauto.
  - rewrite <- Nat.succ_le_mono. apply length_filter.
Qed.

(** X6. When the PC_ID column is the first column, evaluating the clauses of
    the table filtered by [ids] gives, for the numbers of [ids], the entries
    of the evaluation of the whole table, and no other entry. *)
Theorem evaluateClauses_filterTableByIds (A : option (gmap num Z)) (head : row)
    (rows : table) (ids : list cell) (pc : num) :
  findCol_or_first head ["pc"; "id"] = 0 →
  evaluateClauses A (Some (filterTableByIds (Some (head :: rows)) (Some ids))) !! pc
  = if decide (pc ∈ map Number ids)
    then evaluateClauses A (Some (head :: rows)) !! pc
    else None.
Proof.
  intros Hcol.
  assert (filterTableByIds (Some (head :: rows)) (Some ids)
          = head :: filter (λ r, Number (at_index r 0) ∈ map Number ids) rows) as ->.
  { destruct ids as [|id ids].
    - simpl. f_equal. symmetry. apply filter_none.
      apply Forall_forall. intros r _. apply not_elem_of_nil.
    - unfold filterTableByIds. f_equal. apply list_filter_iff. intros r.
      apply elem_of_SetFrom. }
  rewrite !evaluateClauses_last. unfold clause_row. rewrite list_filter_filter.
  assert (∀ r, PC_ID_of head r = Number (at_index r 0)) as Hkey
    by (intros r; unfold PC_ID_of; by rewrite Hcol).
  destruct (decide (pc ∈ map Number ids)) as [Hin|Hnotin].
  - f_equal. f_equal. apply list_filter_iff. intros r. rewrite Hkey.
    split; [tauto|]. intros Heq. split; [done|]. by rewrite Heq.
  - rewrite filter_none; [done|].
    apply Forall_forall. intros r _ [Heq Hr]. rewrite Hkey in Heq. by rewrite Heq in Hr.
Qed.

(** *** [evaluateTagsBuildMode]: the values it gives *)

Lemma spec_truth_range (head r : row) (a : cell) :
  spec_truth head r a = -1 ∨ spec_truth head r a = 0 ∨ spec_truth head r a = 1.
Proof. unfold spec_truth. repeat case_bool_decide; auto; destruct (nonempty _); auto. Qed.

Lemma spec_truth_neg (head r : row) (a : cell) :
  spec_truth head r a = -1 →
  canon (at_index r (findCol head ["entry"; "category"])) = "bool" ∧ canon a = "no".
Proof.
  unfold spec_truth. repeat case_bool_decide; try done. by destruct (nonempty _).
Qed.

Lemma evaluateTagsBuildMode_entry (answers : list (string * cell)) (head : row)
    (rows : table) (id : num) (v : Z) :
  evaluateTagsBuildMode (Some answers) (Some (head :: rows)) !! id = Some v →
  ∃ r k a, tag_row head rows id = Some r ∧ (k, a) ∈ answers ∧ Number (Str k) = id
           ∧ v = spec_truth head r a.
Proof.
  revert v. induction answers as [|[k a] answers IH] using rev_ind; intros v; [done|].
  rewrite evaluateTagsBuildMode_snoc.
  assert (evaluateTagsBuildMode (Some answers) (Some (head :: rows)) !! id = Some v →
          ∃ r k' a', tag_row head rows id = Some r ∧ (k', a') ∈ answers ++ [(k, a)]
                     ∧ Number (Str k') = id ∧ v = spec_truth head r a') as Hold.
  { intros Hv. destruct (IH v Hv) as (r & k' & a' & ? & ? & ? & ?).
    exists r, k', a'. rewrite elem_of_app. auto. }
  destruct (tag_row head rows (Number (Str k))) as [r|] eqn:Hrow; [|done].
  destruct (decide (Number (Str k) = id)) as [<- | Hne].
  - rewrite lookup_insert_eq. intros [= <-]. exists r, k, a.
    rewrite elem_of_app, list_elem_of_singleton. auto.
  - by rewrite lookup_insert_ne.
Qed.

(** X7. Every truth value [evaluateTagsBuildMode] gives is -1, 0 or 1; it
    gives -1 only to a tag whose row has the canonical Entry_Category "bool"
    (and that some answer canonically "no" has been given to): no answer to
    any other tag is ever a denial.  Without a table or without answers the
    mapping is empty. *)
Theorem evaluateTagsBuildMode_values (answers : option (list (string * cell)))
    (tags : option table) :
  (∀ id v, evaluateTagsBuildMode answers tags !! id = Some v → v = -1 ∨ v = 0 ∨ v = 1)
  ∧ (∀ id, evaluateTagsBuildMode answers tags !! id = Some (-1) →
           bool_tag tags id
           ∧ ∃ k a, (k, a) ∈ default [] answers ∧ Number (Str k) = id ∧ canon a = "no")
  ∧ evaluateTagsBuildMode answers None = ∅
  ∧ evaluateTagsBuildMode answers (Some []) = ∅
  ∧ evaluateTagsBuildMode None tags = ∅
  ∧ evaluateTagsBuildMode (Some []) tags = ∅.
Proof.
  assert (evaluateTagsBuildMode answers tags
          = evaluateTagsBuildMode (Some (default [] answers)) tags) as ->
    by (by destruct answers).
  split; [|split; [|split; [done|split; [done|split]]]].
  - intros id v. destruct tags as [[|head rows]|]; [done| |done]. intros Hv.
    apply evaluateTagsBuildMode_entry in Hv as (r & k & a & _ & _ & _ & ->).
    apply spec_truth_range.
  - intros id. destruct tags as [[|head rows]|]; [done| |done]. intros Hv.
    apply evaluateTagsBuildMode_entry in Hv as (r & k & a & Hrow & Hin & Hk & Hneg).
    symmetry in Hneg. apply spec_truth_neg in Hneg as [Hbool Hno].
    split; [by exists head, rows, r|]. by exists k, a.
  - by destruct tags as [[|head rows]|].
  - by destruct tags as [[|head rows]|].
Qed.

(** X8. A clause whose exclude list holds a tag that is not a "bool" tag of
    the tag table is never included, whatever the answers: its verdict,
    computed from the truth values of [evaluateTagsBuildMode], is never 1. *)
Theorem exclude_tag_not_bool_never_included (answers : option (list (string * cell)))
    (tags : option table) (head : row) (rows : table) (pc : num) (r : row) (t : num) :
  clause_row head rows pc = Some r →
  t ∈ Exclude_If_List_of head r →
  ¬ bool_tag tags t →
  evaluateClauses (Some (evaluateTagsBuildMode answers tags)) (Some (head :: rows)) !! pc
  ≠ Some 1.
Proof.
  intros Hrow Ht Hnot. rewrite evaluateClauses_last, Hrow. simpl. intros [= Hv].
  assert (evaluateTagsBuildMode answers tags
          = evaluateTagsBuildMode (Some (default [] answers)) tags) as Heq
    by (by destruct answers).
  set (A := Some (evaluateTagsBuildMode answers tags)) in *.
  assert (value A t ≠ -1) as Hvalue.
  { unfold value, A. simpl. intros Hneg.
    destruct (evaluateTagsBuildMode answers tags !! t) as [v|] eqn:Hlook; [|done].
    simpl in Hneg. subst v. apply Hnot. rewrite Heq in Hlook.
    destruct tags as [[|thead trows]|]; [done| |done].
    apply evaluateTagsBuildMode_entry in Hlook as (tr & k & a & ? & _ & _ & Hneg).
    symmetry in Hneg. apply spec_truth_neg in Hneg as [? _]. by exists thead, trows, tr. }
  unfold spec_verdict in Hv. repeat case_bool_decide; try done.
  destruct H1 as [_ Hexc]. rewrite Forall_forall in Hexc. by apply Hvalue, Hexc.
Qed.

(** *** [findCol] *)

Lemma findCol_from_spec (k : Z) (headers : row) (p : list string) :
  (findCol_from k headers p = -1
   ∧ Forall (λ c, rx_test p (header_label c) = false) headers)
  ∨ (∃ (i : nat) (c : cell),
       findCol_from k headers p = k + Z.of_nat i
       ∧ headers !! i = Some c
       ∧ rx_test p (header_label c) = true
       ∧ Forall (λ c', rx_test p (header_label c') = false) (take i headers)).
Proof.
  revert k. induction headers as [|c headers IH]; intros k; simpl.
  - left. split; [done|constructor].
  - fold (header_label c). destruct (rx_test p (header_label c)) eqn:Hc.
    + right. exists 0%nat, c. split; [lia|]. split; [done|]. split; [done|constructor].
    + destruct (IH (k + 1)) as [[Hnone Hall]|(i & c' & Heq & Hi & Hc' & Hbefore)].
      * left. split; [done|]. by constructor.
      * right. exists (S i), c'. split; [lia|]. split; [done|]. split; [done|].
        simpl. by constructor.
Qed.

(** X9. [findCol] returns -1 exactly when no header matches the pattern, and
    otherwise the index, inside the header row, of the first header that
    matches; the index with the fallback to the first column is never
    negative and is inside a header row that is not empty. *)
Theorem findCol_spec (headers : row) (p : list string) :
  ((findCol headers p = -1
    ∧ Forall (λ c, rx_test p (header_label c) = false) headers)
   ∨ (∃ (i : nat) (c : cell),
        findCol headers p = Z.of_nat i
        ∧ headers !! i = Some c
        ∧ rx_test p (header_label c) = true
        ∧ Forall (λ c', rx_test p (header_label c') = false) (take i headers)))
  ∧ (0 ≤ findCol_or_first headers p)%Z
  ∧ (headers ≠ [] → (findCol_or_first headers p < Z.of_nat (length headers))%Z).
Proof.
  unfold findCol_or_first, findCol.
  destruct (findCol_from_spec 0 headers p) as [[Hnone Hall]|(i & c & Heq & Hi & Hc & Hb)].
  - rewrite Hnone. simpl. split; [by left|]. split; [lia|].
    destruct headers; [done|]. simpl. lia.
  - rewrite Heq. apply lookup_lt_Some in Hi as Hlt. split.
    + right. exists i, c. split; [lia|done].
    + destruct (0 + Z.of_nat i =? -1)%Z eqn:Hm; [lia|]. split; [lia|]. intros _. lia.
Qed.

(** *** [shapeTagsInfo] *)

Lemma toNum_finite (c : cell) : isFinite (Number (toNum c)) = true.
Proof. unfold toNum. by destruct (isFinite (Number c)) eqn:Hfin. Qed.

Lemma num_truthy_number (n : num) : num_truthy n = true → n ≠ NaN ∧ n ≠ Int 0.
Proof.
  destruct n as [| |q|]; simpl; try done. rewrite bool_decide_eq_true.
  intros Hq. split; [done|]. intros [= Heq]. apply Hq. rewrite Heq.
  by apply Qc_is_canon.
Qed.

(** X10. [shapeTagsInfo] shapes one tag for each data row, in order; the
    identifier of a shaped tag is [null] or a finite number, so the number
    [dedupeByTagId] reads from it is always finite (0 for a cell that is not
    numeric); and unless the Priority cell is a string, the priority of the
    shaped tag is a number that is neither [NaN] nor 0. *)
Theorem shapeTagsInfo_spec (head : row) (rows : table) :
  shapeTagsInfo None = [] ∧ shapeTagsInfo (Some []) = []
  ∧ length (shapeTagsInfo (Some (head :: rows))) = length rows
  ∧ Forall (λ t, (Tag_ID t = Null ∨ ∃ n, Tag_ID t = Num n ∧ isFinite n = true)
                 ∧ isFinite (id_of t) = true)
           (shapeTagsInfo (Some (head :: rows)))
  ∧ (priority_cells_not_strings head rows →
     Forall (λ t, priority_of t ≠ NaN ∧ priority_of t ≠ Int 0 ∧ comparable t)
            (shapeTagsInfo (Some (head :: rows)))).
Proof.
  split; [done|]. split; [done|]. unfold shapeTagsInfo.
  split; [by rewrite length_map|]. split.
  - apply Forall_map, Forall_forall. intros r _. simpl.
    split; [|apply toNum_finite]. unfold toNum.
    destruct (isFinite (Number _)) eqn:Hfin; [right; eauto|by left].
  - intros Hcells. apply Forall_map. eapply Forall_impl; [exact Hcells|].
    intros r Hr. unfold comparable, priority_of, id_of. simpl.
    assert (∀ p, p ≠ NaN ∧ p ≠ Int 0 →
                 p ≠ NaN ∧ p ≠ Int 0
                 ∧ p ≠ NaN ∧ isFinite (Number (toNum (at_index r
                     (findCol_or_first head ["tag"; "id"])))) = true) as Hwrap
      by (intros p [? ?]; by rewrite toNum_finite).
    destruct (findCol head ["priority"] =? -1)%Z; simpl; [by apply Hwrap|].
    apply Hwrap. unfold or_else.
    destruct (at_index r (findCol head ["priority"])) as [| |[|]|n|s] eqn:Hcell;
      simpl; try done.
    + destruct (num_truthy n) eqn:Hn; simpl; [by apply num_truthy_number|done].
    + by destruct (Hr s).
Qed.

(** *** Strings: [trim], [split], [toLowerCase] *)

Lemma trimStart_solid (s : string) : starts_solid (trimStart s) = true.
Proof.
  induction s as [|a s IH]; simpl; [done|].
  destruct (is_ws a) eqn:Ha; [done|]. simpl. by rewrite Ha.
Qed.

Lemma trimStart_id (s : string) : starts_solid s = true → trimStart s = s.
Proof. destruct s as [|a s]; simpl; [done|]. by destruct (is_ws a). Qed.

Lemma trimEnd_solid (s : string) : starts_solid s = true → starts_solid (trimEnd s) = true.
Proof.
  destruct s as [|a s]; simpl; [done|].
  destruct (is_ws a) eqn:Ha; simpl; [done|]. intros _.
  destruct (trimEnd s); simpl; by rewrite Ha.
Qed.

Lemma trimEnd_idem (s : string) : trimEnd (trimEnd s) = trimEnd s.
Proof.
  induction s as [|a s IH]; simpl; [done|].
  destruct (trimEnd s) as [|b t] eqn:Ht.
  - destruct (is_ws a) eqn:Ha; simpl; [done|]. by rewrite Ha.
  - change (trimEnd (String a (String b t))) with
      (match trimEnd (String b t) with
       | EmptyString => if is_ws a then EmptyString else String a EmptyString
       | t' => String a t'
       end).
    by rewrite IH.
Qed.

Lemma trim_idem (s : string) : trim (trim s) = trim s.
Proof.
  unfold trim. rewrite (trimStart_id (trimEnd (trimStart s))).
  - apply trimEnd_idem.
  - apply trimEnd_solid, trimStart_solid.
Qed.

Lemma string_forall_trimStart (P : ascii → bool) (s : string) :
  string_forall P s = true → string_forall P (trimStart s) = true.
Proof.
  induction s as [|a s IH]; simpl; [done|].
  rewrite andb_true_iff. intros [Ha Hs]. destruct (is_ws a); [by apply IH|].
  simpl. by rewrite Ha, Hs.
Qed.

Lemma string_forall_trimEnd (P : ascii → bool) (s : string) :
  string_forall P s = true → string_forall P (trimEnd s) = true.
Proof.
  induction s as [|a s IH]; simpl; [done|].
  rewrite andb_true_iff. intros [Ha Hs]. specialize (IH Hs).
  destruct (trimEnd s) as [|b t].
  - destruct (is_ws a); simpl; [done|]. by rewrite Ha.
  - change (string_forall P (String a (String b t)))
      with (P a && string_forall P (String b t)). by rewrite Ha, IH.
Qed.

Lemma string_forall_trim (P : ascii → bool) (s : string) :
  string_forall P s = true → string_forall P (trim s) = true.
Proof. intros Hs. by apply string_forall_trimEnd, string_forall_trimStart. Qed.

Lemma string_forall_rev_app (P : ascii → bool) (s1 s2 : string) :
  string_forall P (String.rev_app s1 s2) = string_forall P s1 && string_forall P s2.
Proof.
  revert s2. induction s1 as [|a s1 IH]; intros s2; simpl; [done|].
  rewrite IH. simpl. by destruct (P a), (string_forall P s1), (string_forall P s2).
Qed.

Lemma split_go_pieces (in_run : bool) (cur s : string) :
  string_forall (λ a, negb (is_sep a)) cur = true →
  Forall (λ piece, string_forall (λ a, negb (is_sep a)) piece = true)
         (split_go in_run cur s).
Proof.
  revert in_run cur. induction s as [|a s IH]; intros in_run cur Hcur; simpl.
  - constructor; [|constructor]. unfold String.rev.
    by rewrite string_forall_rev_app, Hcur.
  - destruct (is_sep a) eqn:Ha.
    + destruct in_run; [by apply IH|]. constructor; [|by apply IH].
      unfold String.rev. by rewrite string_forall_rev_app, Hcur.
    + apply IH. simpl. by rewrite Ha, Hcur.
Qed.

(** X11. [parseList] returns no token for [null] and [undefined]; every token
    it returns is not empty, has no white space at either end (trimming it
    changes nothing) and holds none of the separators [,], [|] and [;]. *)
Theorem parseList_tokens (c : cell) :
  parseList Undefined = [] ∧ parseList Null = []
  ∧ Forall (λ tok, nonempty tok = true
                   ∧ trim tok = tok
                   ∧ string_forall (λ a, negb (is_sep a)) tok = true)
           (parseList c).
Proof.
  split; [done|]. split; [done|].
  assert (Forall (λ tok, nonempty tok = true ∧ trim tok = tok
                         ∧ string_forall (λ a, negb (is_sep a)) tok = true)
            (List.filter nonempty (map trim (split_SPLIT_RE (ToString c))))) as Hall.
  { apply Forall_forall. intros tok Htok.
    apply list_elem_of_In, filter_In in Htok as [Htok Hne].
    apply in_map_iff in Htok as (piece & <- & Hpiece).
    split; [done|]. split; [apply trim_idem|]. apply string_forall_trim.
    pose proof (split_go_pieces false EmptyString (ToString c) eq_refl) as Hpieces.
    rewrite Forall_forall in Hpieces. by apply Hpieces, list_elem_of_In. }
  destruct c; simpl; try done; constructor.
Qed.

(** Characters under [toLowerCase]. *)
Lemma lower_facts (a : ascii) :
  is_ws (lower a) = is_ws a
  ∧ Ascii.eqb (lower a) "_" = Ascii.eqb a "_"
  ∧ lower (lower a) = lower a
  ∧ is_upper (lower a) = false
  ∧ (is_ws a = true → lower a = a).
Proof. destruct a as [[] [] [] [] [] [] [] []]; vm_compute; done. Qed.

Lemma toLowerCase_idem (s : string) : toLowerCase (toLowerCase s) = toLowerCase s.
Proof.
  induction s as [|a s IH]; simpl; [done|].
  by rewrite IH, (proj1 (proj2 (proj2 (lower_facts a)))).
Qed.

Lemma toLowerCase_trimStart (s : string) :
  trimStart (toLowerCase s) = toLowerCase (trimStart s).
Proof.
  induction s as [|a s IH]; simpl; [done|].
  rewrite (proj1 (lower_facts a)). by destruct (is_ws a).
Qed.

Lemma toLowerCase_trimEnd (s : string) :
  trimEnd (toLowerCase s) = toLowerCase (trimEnd s).
Proof.
  induction s as [|a s IH]; simpl; [done|].
  rewrite IH, (proj1 (lower_facts a)).
  destruct (trimEnd s) as [|b t]; simpl; [by destruct (is_ws a)|done].
Qed.

Lemma toLowerCase_collapse (in_run : bool) (s : string) :
  collapse_go in_run (toLowerCase s) = toLowerCase (collapse_go in_run s).
Proof.
  revert in_run. induction s as [|a s IH]; intros in_run; simpl; [done|].
  rewrite (proj1 (lower_facts a)).
  destruct (is_ws a); [destruct in_run|]; simpl; by rewrite IH.
Qed.

Lemma toLowerCase_underscores (s : string) :
  underscores_to_spaces (toLowerCase s) = toLowerCase (underscores_to_spaces s).
Proof.
  induction s as [|a s IH]; simpl; [done|].
  rewrite IH, (proj1 (proj2 (lower_facts a))). by destruct (Ascii.eqb a "_").
Qed.

Lemma canon_Str (s : string) :
  canon (Str s) = toLowerCase (underscores_to_spaces (collapse_ws (trim s))).
Proof. unfold canon, or_else. simpl. by destruct s. Qed.

Lemma string_forall_impl (P Q : ascii → bool) (s : string) :
  (∀ a, P a = true → Q a = true) → string_forall P s = true → string_forall Q s = true.
Proof.
  intros HPQ. induction s as [|a s IH]; simpl; [done|].
  rewrite !andb_true_iff. intros [? ?]. auto.
Qed.

Lemma string_forall_true (P : ascii → bool) (s : string) :
  (∀ a, P a = true) → string_forall P s = true.
Proof. intros HP. induction s as [|a s IH]; simpl; [done|]. by rewrite HP, IH. Qed.

Lemma string_forall_toLowerCase (P : ascii → bool) (s : string) :
  string_forall P (toLowerCase s) = string_forall (λ a, P (lower a)) s.
Proof. induction s as [|a s IH]; simpl; [done|]. by rewrite IH. Qed.

Lemma string_forall_underscores (P : ascii → bool) (s : string) :
  string_forall P (underscores_to_spaces s)
  = string_forall (λ a, P (if Ascii.eqb a "_" then " "%char else a)) s.
Proof. induction s as [|a s IH]; simpl; [done|]. by rewrite IH. Qed.

Lemma string_forall_collapse (in_run : bool) (s : string) :
  string_forall (λ a, negb (is_ws a) || Ascii.eqb a " ") (collapse_go in_run s) = true.
Proof.
  revert in_run. induction s as [|a s IH]; intros in_run; simpl; [done|].
  destruct (is_ws a) eqn:Ha; [destruct in_run|]; simpl; rewrite ?Ha; by rewrite IH.
Qed.

Lemma canon_chars (a : ascii) :
  negb (is_upper (lower a)) = true
  ∧ negb (Ascii.eqb (lower (if Ascii.eqb a "_" then " "%char else a)) "_") = true
  ∧ (negb (is_ws a) || Ascii.eqb a " " = true →
     negb (is_ws (lower (if Ascii.eqb a "_" then " "%char else a)))
     || Ascii.eqb (lower (if Ascii.eqb a "_" then " "%char else a)) " " = true).
Proof. destruct a as [[] [] [] [] [] [] [] []]; vm_compute; done. Qed.

Lemma canon_shape (t : string) :
  let r := toLowerCase (underscores_to_spaces (collapse_ws t)) in
  string_forall (λ a, negb (is_upper a)) r = true
  ∧ string_forall (λ a, negb (Ascii.eqb a "_")) r = true
  ∧ string_forall (λ a, negb (is_ws a) || Ascii.eqb a " ") r = true.
Proof.
  intros r. unfold r. rewrite !string_forall_toLowerCase, !string_forall_underscores.
  split; [|split].
  - apply string_forall_true. intros a.
    apply (canon_chars (if Ascii.eqb a "_" then " "%char else a)).
  - apply string_forall_true. intros a. apply (canon_chars a).
  - eapply string_forall_impl; [|apply string_forall_collapse].
    intros a. apply (canon_chars a).
Qed.

(** X12. [canon] ignores the case of letters and the white space around its
    argument; its result holds no upper-case letter, no underscore and no
    white space other than the space; and it is the empty string for
    [undefined], [null] and the empty string. *)
Theorem canon_insensitive (s : string) (c : cell) :
  canon (Str (toLowerCase s)) = canon (Str s)
  ∧ canon (Str (trim s)) = canon (Str s)
  ∧ string_forall (λ a, negb (is_upper a)) (canon c) = true
  ∧ string_forall (λ a, negb (Ascii.eqb a "_")) (canon c) = true
  ∧ string_forall (λ a, negb (is_ws a) || Ascii.eqb a " ") (canon c) = true
  ∧ canon Undefined = "" ∧ canon Null = "" ∧ canon (Str "") = "".
Proof.
  split; [|split; [|split; [|split; [|split; [|done]]]]].
  - rewrite !canon_Str. unfold trim, collapse_ws.
    by rewrite toLowerCase_trimStart, toLowerCase_trimEnd, toLowerCase_collapse,
      toLowerCase_underscores, toLowerCase_idem.
  - by rewrite !canon_Str, trim_idem.
  - apply (canon_shape (trim (ToString (or_else c (Str ""))))).
  - apply (canon_shape (trim (ToString (or_else c (Str ""))))).
  - apply (canon_shape (trim (ToString (or_else c (Str ""))))).
Qed.

(** *** The callers: [recompute] *)

Lemma filterTableByIds_cons (head : row) (rows : table) (ids : list cell) :
  filterTableByIds (Some (head :: rows)) (Some ids)
  = head :: filter (λ r, Number (at_index r 0) ∈ map Number ids) rows.
Proof.
  destruct ids as [|id ids].
  - simpl. f_equal. symmetry. apply filter_none.
    apply Forall_forall. intros r _. apply not_elem_of_nil.
  - unfold filterTableByIds. f_equal. apply list_filter_iff. intros r.
    apply elem_of_SetFrom.
Qed.

Lemma map_Number_Num (l : list num) : map Number (map Num l) = l.
Proof. rewrite map_map. simpl. apply map_id. Qed.

(** The resolver resolves clauses only from three tables that have a header
    row, and tags only from clauses. *)
Lemma resolver_nonempty (tb : refTables) (name : cell) :
  clausesArray (getTagsAndClausesByTemplateName tb name) ≠ [] →
  ∃ cHead cRows, clausesTable tb = Some (cHead :: cRows).
Proof.
  unfold getTagsAndClausesByTemplateName.
  destruct (templatesTable tb) as [[|tHead tRows]|]; [done| |done].
  destruct (variablesTable tb) as [[|vHead vRows]|]; [done| |done].
  destruct (clausesTable tb) as [[|cHead cRows]|]; [done| |done]. eauto.
Qed.

Lemma resolver_no_clause_no_tag (tb : refTables) (name : cell) :
  clausesArray (getTagsAndClausesByTemplateName tb name) = [] →
  tagsArray (getTagsAndClausesByTemplateName tb name) = [].
Proof.
  unfold getTagsAndClausesByTemplateName.
  repeat (case_match; simpl; try done).
  intros ->. done.
Qed.

(** What the scheduler returns, whatever its arguments. *)
Lemma returnNextTagQuestions_cases (clauseEval : option (gmap num Z))
    (tbl : option table) (clauses : option (list num))
    (A : option (gmap num Z)) (tags : option (list num)) (info : option (list tagInfo)) :
  let res := returnNextTagQuestions clauseEval tbl clauses A tags info in
  (status res = "done" ∨ status res = "ask")
  ∧ (status res = "done" → nextQuestions res = [])
  ∧ NoDup (id_of <$> nextQuestions res)
  ∧ Forall (λ q, isFinite (id_of q) = true) (nextQuestions res)
  ∧ (∀ head rows, tbl = Some (head :: rows) → status res = "ask" →
                  nextQuestions res ≠ []).
Proof.
  intros res. destruct tbl as [[|head rows]|].
  - destruct (returnNextTagQuestions_no_table clauseEval (Some []) clauses A tags info
                (or_intror eq_refl)) as [Hst Hq].
    fold res in Hst, Hq. rewrite Hst, Hq.
    destruct (decide _); repeat split; auto; try constructor; done.
  - destruct (returnNextTagQuestions_table clauseEval head rows clauses A tags info)
      as [Hdone Hask]. fold res in Hdone, Hask.
    set (pending := pending_tags _ _) in *.
    destruct (decide (unresolved clauseEval clauses = [])) as [HU|HU].
    { destruct (Hdone (or_introl HU)) as [-> ->].
      repeat split; auto; try constructor; done. }
    destruct (decide (pending = [])) as [HP|HP].
    { destruct (Hdone (or_intror HP)) as [-> ->].
      repeat split; auto; try constructor; done. }
    destruct (Hask HU HP) as [-> ->].
    assert (id_of <$> sort by_priority
              (map (question_of (MapFrom (map (λ t, (Number (Tag_ID t), t))
                                              (default [] info)))) pending)
            ≡ₚ pending) as Hperm
      by (rewrite sort_perm; by rewrite question_of_ids).
    split; [by right|]. split; [done|].
    split; [rewrite Hperm; apply pending_NoDup|]. split.
    + apply Forall_forall. intros q Hq.
      assert (id_of q ∈ pending) as Hin
        by (rewrite <- Hperm; apply list_elem_of_fmap; by exists q).
      pose proof (pending_finite A (unresolved_tags
        (MapFrom (map (λ r, (PC_ID_of head r, r)) rows))
        (findCol head ["tags"; "array"]) (unresolved clauseEval clauses))) as Hfin.
      rewrite Forall_forall in Hfin. by apply Hfin.
    + intros _ _ _ _ Hnil. rewrite Hnil in Hperm. simpl in Hperm.
      symmetry in Hperm. apply Permutation_nil_r in Hperm. done.
  - destruct (returnNextTagQuestions_no_table clauseEval None clauses A tags info
                (or_introl eq_refl)) as [Hst Hq].
    fold res in Hst, Hq. rewrite Hst, Hq.
    destruct (decide _); repeat split; auto; try constructor; done.
Qed.

(** X13. [recompute] leaves the state as it is without tables or without a
    template name.  Otherwise the status it sets is "empty-template" exactly
    when no clause is resolved, and "done" or "ask" when some is; and here
    "ask" always comes with at least one question, and the other statuses
    with none. *)
Theorem recompute_status (tables : option appTables) (templateName : string)
    (answers : list (string * cell)) (st : appState) :
  recompute None templateName answers st = st
  ∧ recompute tables "" answers st = st
  ∧ (∀ tb, tables = Some tb → nonempty templateName = true →
       let st' := recompute tables templateName answers st in
       st_clausesArray st'
       = clausesArray (getTagsAndClausesByTemplateName (refs tb) (Str templateName))
       ∧ (st_status st' = "empty-template" ↔ st_clausesArray st' = [])
       ∧ (st_status st' = "empty-template" ∨ st_status st' = "done"
          ∨ st_status st' = "ask")
       ∧ (st_status st' = "ask" ↔ st_nextQuestions st' ≠ [])).
Proof.
  split; [done|]. split; [by destruct tables|].
  intros tb -> Hname st'. unfold st', recompute. rewrite Hname. simpl.
  set (res := getTagsAndClausesByTemplateName (refs tb) (Str templateName)).
  destruct (clausesArray res) as [|c cs] eqn:Hclauses; simpl.
  { repeat split; auto; done. }
  destruct (resolver_nonempty (refs tb) (Str templateName)) as (cHead & cRows & HcT).
  { fold res. by rewrite Hclauses. }
  rewrite HcT, filterTableByIds_cons.
  match goal with |- context [returnNextTagQuestions ?a ?b ?c ?d ?e ?f] =>
    destruct (returnNextTagQuestions_cases a b c d e f) as (Hst & Hdone & _ & _ & Hask)
  end.
  split; [done|]. split.
  - split; [|done]. by destruct Hst as [-> | ->].
  - split; [tauto|]. split.
    + intros Hs. by eapply Hask.
    + intros Hq. destruct Hst as [Hs|Hs]; [|done]. by destruct Hq; apply Hdone.
Qed.

(** The truth values of a restricted tag table are values of tags of the
    identifiers, when the identifier column is the first column. *)
Lemma assigned_in_universe (answers : list (string * cell)) (tags : option table)
    (ids : list num) (t : num) (v : Z) :
  (∀ thead trows, tags = Some (thead :: trows) →
                  findCol_or_first thead ["tag"; "id"] = 0) →
  evaluateTagsBuildMode (Some answers)
    (Some (filterTableByIds tags (Some (map Num ids)))) !! t = Some v →
  t ∈ ids.
Proof.
  intros Hcol. destruct tags as [[|thead trows]|]; [done| |done].
  rewrite filterTableByIds_cons, map_Number_Num. intros Hv.
  apply evaluateTagsBuildMode_entry in Hv as (r & _ & _ & Hrow & _).
  apply last_filter_Some in Hrow as [Hr Hid].
  apply list_elem_of_filter in Hr as [Hin _].
  unfold Tag_ID_of in Hid. by rewrite (Hcol thead trows eq_refl) in Hid; subst t.
Qed.

(** X14. In [recompute], when the identifier column of the Tag table is its
    first column, the completion ratio is the number of tags of the resolved
    universe whose truth value is 1 or -1, divided by the size of the
    universe (0 for an empty universe): no answered tag outside the universe
    is counted. *)
Theorem recompute_ratio (tb : appTables) (templateName : string)
    (answers : list (string * cell)) (st : appState) :
  nonempty templateName = true →
  (∀ thead trows, tagsTable tb = Some (thead :: trows) →
                  findCol_or_first thead ["tag"; "id"] = 0) →
  let st' := recompute (Some tb) templateName answers st in
  st_ratioCompleted st'
  = spec_ratio
      (Some (evaluateTagsBuildMode (Some answers) (Some (st_filteredTagsTable st'))))
      (st_tagsArray st').
Proof.
  intros Hname Hcol st'. unfold st', recompute. rewrite Hname. simpl.
  set (res := getTagsAndClausesByTemplateName (refs tb) (Str templateName)).
  destruct (clausesArray res) as [|c cs] eqn:Hclauses; simpl.
  { unfold res in *. by rewrite (resolver_no_clause_no_tag _ _ Hclauses). }
  rewrite ratioCompletedTags_eq. unfold spec_ratio. simpl.
  destruct (0 <? length (tagsArray res))%nat; [|done]. f_equal.
  apply assigned_count.
  - apply StronglySorted_num_lt_NoDup, tagsArray_sorted.
  - intros t v Hv _. by eapply assigned_in_universe.
Qed.

Lemma Forall_sublist {A} (P : A → Prop) (l k : list A) :
  Forall P k → l `sublist_of` k → Forall P l.
Proof.
  intros Hk Hsub. induction Hsub as [|x l k Hsub IH|x l k Hsub IH]; [done|..].
  - apply Forall_cons in Hk as [? ?]. constructor; auto.
  - apply Forall_cons in Hk as [? ?]. auto.
Qed.

Lemma shapeTagsInfo_priorities (head : row) (rows : table) :
  priority_cells_not_strings head rows →
  Forall (λ t, priority_of t ≠ NaN) (shapeTagsInfo (Some (head :: rows))).
Proof.
  intros Hcells. unfold shapeTagsInfo. apply Forall_map.
  eapply Forall_impl; [exact Hcells|]. intros r Hr. unfold priority_of. simpl.
  destruct (findCol head ["priority"] =? -1)%Z; simpl; [done|]. unfold or_else.
  destruct (at_index r (findCol head ["priority"])) as [| |[|]|n|s] eqn:Hcell;
    simpl; try done.
  - destruct (num_truthy n) eqn:Hn; simpl; [by apply num_truthy_number|done].
  - by destruct (Hr s).
Qed.

(** X15. In [recompute], unless a Priority cell of the Tag table is a string,
    the questions are in order of priority, a tag without priority last,
    then of identifier; and no two questions are of one tag. *)
Theorem recompute_questions_sorted (tb : appTables) (templateName : string)
    (answers : list (string * cell)) (st : appState) :
  nonempty templateName = true →
  (∀ thead trows, tagsTable tb = Some (thead :: trows) →
                  priority_cells_not_strings thead trows) →
  let st' := recompute (Some tb) templateName answers st in
  StronglySorted question_le (st_nextQuestions st')
  ∧ NoDup (id_of <$> st_nextQuestions st').
Proof.
  intros Hname Hcells st'. unfold st', recompute. rewrite Hname. simpl.
  set (res := getTagsAndClausesByTemplateName (refs tb) (Str templateName)).
  destruct (clausesArray res) as [|c cs] eqn:Hclauses; simpl.
  { split; constructor. }
  split.
  - apply nextQuestions_sorted. simpl.
    eapply Forall_sublist; [|apply dedupe_loop_sublist].
    destruct (tagsTable tb) as [[|thead trows]|] eqn:Htags; [constructor| |constructor].
    rewrite filterTableByIds_cons. apply shapeTagsInfo_priorities.
    eapply Forall_sublist; [apply (Hcells thead trows eq_refl)|apply sublist_filter].
  - match goal with |- context [returnNextTagQuestions ?a ?b ?c ?d ?e ?f] =>
      by destruct (returnNextTagQuestions_cases a b c d e f) as (_ & _ & ? & _)
    end.
Qed.

(** *** The callers: the questions of the user interface *)

Lemma render_loop_map (m : gmap string (list string)) (seen : list num)
    (qs : list tagInfo) :
  render_loop m seen qs
  = map (λ q, coerceForUI {| tag := q; __coerced := false |} m) (dedupe_loop seen qs).
Proof.
  revert seen. induction qs as [|q qs IH]; intros seen; simpl; [done|].
  destruct (negb _); [apply IH|]. case_bool_decide; [apply IH|].
  simpl. by rewrite IH.
Qed.

Lemma coerceForUI_tag (q : uiQuestion) (m : gmap string (list string)) :
  entry_type_of (tag (coerceForUI q m)) ≠ "no display"
  ∧ Tag_ID (tag (coerceForUI q m)) = Tag_ID (tag q).
Proof.
  unfold coerceForUI. case_bool_decide as Htype; simpl; [|done].
  split; [|done]. unfold entry_type_of. simpl.
  case_bool_decide; [done|]. by destruct (0 <? _)%nat.
Qed.

(** X16. [coerceForUI] never returns a question whose entry type is "no
    display" (in any case of letters); applied again it changes nothing; it
    keeps every field but Entry_Type, and marks the question as coerced
    exactly when its entry type was "no display". *)
Theorem coerceForUI_spec (q : uiQuestion) (m : gmap string (list string)) :
  let q' := coerceForUI q m in
  entry_type_of (tag q') ≠ "no display"
  ∧ coerceForUI q' m = q'
  ∧ Tag_ID (tag q') = Tag_ID (tag q)
  ∧ Tag_Category (tag q') = Tag_Category (tag q)
  ∧ Priority (tag q') = Priority (tag q)
  ∧ Question (tag q') = Question (tag q)
  ∧ Entry_Category (tag q') = Entry_Category (tag q)
  ∧ Helper_Text (tag q') = Helper_Text (tag q)
  ∧ (entry_type_of (tag q) ≠ "no display" → q' = q)
  ∧ (entry_type_of (tag q) = "no display" → __coerced q' = true).
Proof.
  intros q'. destruct (coerceForUI_tag q m) as [Htype _]. fold q' in Htype.
  split; [done|]. split.
  { unfold coerceForUI at 1. by rewrite bool_decide_eq_false_2. }
  unfold q', coerceForUI. case_bool_decide as Hq; simpl; repeat split; done.
Qed.

(** X17. The questions rendered from what the scheduler returns are the
    scheduled questions, one for one and in their order, each as
    [coerceForUI] returns it: the final de-duplication drops none, and none
    is rendered with the entry type "no display". *)
Theorem renderQuestions_scheduler (clauseEval : option (gmap num Z))
    (tbl : option table) (clauses : option (list num))
    (A : option (gmap num Z)) (tags : option (list num)) (info : option (list tagInfo))
    (m : gmap string (list string)) :
  let questions :=
    nextQuestions (returnNextTagQuestions clauseEval tbl clauses A tags info) in
  renderQuestions (Some questions) m
  = map (λ q, coerceForUI {| tag := q; __coerced := false |} m) questions
  ∧ (λ u, Tag_ID (tag u)) <$> renderQuestions (Some questions) m = Tag_ID <$> questions
  ∧ Forall (λ u, entry_type_of (tag u) ≠ "no display") (renderQuestions (Some questions) m).
Proof.
  intros questions.
  destruct (returnNextTagQuestions_cases clauseEval tbl clauses A tags info)
    as (_ & _ & Hnodup & Hfin & _). fold questions in Hnodup, Hfin.
  assert (renderQuestions (Some questions) m
          = map (λ q, coerceForUI {| tag := q; __coerced := false |} m) questions) as ->.
  { unfold renderQuestions. simpl. rewrite render_loop_map. f_equal.
    apply dedupe_loop_id; [done..|]. apply Forall_forall. intros q _. apply not_elem_of_nil. }
  split; [done|]. split.
  - clear. induction questions as [|q qs IH]; [done|]. simpl. f_equal; [|apply IH].
    apply coerceForUI_tag.
  - apply Forall_map, Forall_forall. intros q _. apply coerceForUI_tag.
Qed.

(** *** White space: [trim] and the collapse of runs commute *)

Lemma trimStart_collapse (f : bool) (u : string) :
  trimStart (collapse_go f u) = collapse_go false (trimStart u).
Proof.
  revert f. induction u as [|a u IH]; intros f; simpl; [done|].
  destruct (is_ws a) eqn:Ha.
  - destruct f; simpl; apply IH.
  - simpl. by rewrite Ha.
Qed.

Lemma trimEnd_cons_solid (a : ascii) (s : string) :
  is_ws a = false → trimEnd (String a s) = String a (trimEnd s).
Proof. intros Ha. simpl. rewrite Ha. by destruct (trimEnd s). Qed.

Lemma trimEnd_all_ws (s : string) :
  string_forall is_ws (trimEnd s) = true → trimEnd s = EmptyString.
Proof.
  induction s as [|a s IH]; simpl; [done|].
  destruct (trimEnd s) as [|b t].
  - destruct (is_ws a) eqn:Ha; simpl; [done|]. by rewrite Ha.
  - intros Hall. change (is_ws a && string_forall is_ws (String b t) = true) in Hall.
    apply andb_true_iff in Hall as [_ Hall]. by specialize (IH Hall).
Qed.

Lemma collapse_empty (f : bool) (s : string) :
  collapse_go f s = EmptyString → string_forall is_ws s = true.
Proof.
  revert f. induction s as [|a s IH]; intros f; simpl; [done|].
  destruct (is_ws a); [|done]. destruct f; [apply IH|done].
Qed.

Lemma trimEnd_collapse (f : bool) (v : string) :
  trimEnd (collapse_go f v) = collapse_go f (trimEnd v).
Proof.
  revert f. induction v as [|a v IH]; intros f; [done|].
  destruct (is_ws a) eqn:Ha.
  - assert (trimEnd (String a v)
            = match trimEnd v with EmptyString => EmptyString | t => String a t end) as ->
      by (simpl; by rewrite Ha).
    assert (∀ b t, trimEnd v = String b t → collapse_go true (String b t) ≠ EmptyString)
      as Hne.
    { intros b t Heq Hcol. apply collapse_empty in Hcol. rewrite <- Heq in Hcol.
      apply trimEnd_all_ws in Hcol. by rewrite Heq in Hcol. }
    destruct f.
    + simpl. rewrite Ha, IH. destruct (trimEnd v) as [|b t] eqn:Hv; [done|].
      change (collapse_go true (String a (String b t)))
        with (if is_ws a then collapse_go true (String b t)
              else String a (collapse_go false (String b t))).
      by rewrite Ha.
    + change (collapse_go false (String a v))
        with (if is_ws a then String " " (collapse_go true v)
              else String a (collapse_go false v)).
      rewrite Ha.
      change (trimEnd (String " " (collapse_go true v)))
        with (match trimEnd (collapse_go true v) with
              | EmptyString => EmptyString
              | t => String " " t
              end).
      rewrite IH. destruct (trimEnd v) as [|b t] eqn:Hv; [done|].
      change (collapse_go false (String a (String b t)))
        with (if is_ws a then String " " (collapse_go true (String b t))
              else String a (collapse_go false (String b t))).
      rewrite Ha. specialize (Hne b t eq_refl).
      by destruct (collapse_go true (String b t)).
  - rewrite (trimEnd_cons_solid a v Ha).
    change (collapse_go f (String a v))
      with (if is_ws a
            then (if f then collapse_go true v else String " " (collapse_go true v))
            else String a (collapse_go false v)).
    change (collapse_go f (String a (trimEnd v)))
      with (if is_ws a
            then (if f then collapse_go true (trimEnd v)
                  else String " " (collapse_go true (trimEnd v)))
            else String a (collapse_go false (trimEnd v))).
    rewrite Ha, (trimEnd_cons_solid a _ Ha). by rewrite IH.
Qed.

Lemma trim_collapse (u : string) : trim (collapse_ws u) = collapse_ws (trim u).
Proof. unfold trim, collapse_ws. by rewrite trimStart_collapse, trimEnd_collapse. Qed.

(** A string without white space. *)
Lemma collapse_solid (f : bool) (s : string) :
  string_forall (λ a, negb (is_ws a)) s = true → collapse_go f s = s.
Proof.
  revert f. induction s as [|a s IH]; intros f; simpl; [done|].
  rewrite andb_true_iff, negb_true_iff. intros [-> Hs]. by rewrite IH.
Qed.

Lemma solid_of_collapse (s : string) :
  string_forall (λ a, negb (is_ws a)) (collapse_go false s) = true →
  string_forall (λ a, negb (is_ws a)) s = true.
Proof.
  induction s as [|a s IH]; simpl; [done|].
  destruct (is_ws a) eqn:Ha; simpl; [done|]. rewrite Ha. simpl. apply IH.
Qed.

Lemma match_word_solid (w h : string) :
  string_forall (λ a, negb (is_ws a)) w = true →
  match_word w h = Some EmptyString →
  string_forall (λ a, negb (is_ws a)) h = true.
Proof.
  revert h. induction w as [|a w IH]; intros h; simpl.
  - by intros _ [= ->].
  - rewrite andb_true_iff. intros [Ha Hw]. destruct h as [|b h]; [done|].
    destruct (Ascii.eqb (lower a) (lower b)) eqn:Hab; [|done].
    apply Ascii.eqb_eq in Hab. intros Hm. simpl. rewrite (IH h Hw Hm), andb_true_r.
    destruct (lower_facts a) as [Hwa _], (lower_facts b) as [Hwb _].
    by rewrite <- Hwb, <- Hab, Hwa.
Qed.

Lemma rx_test_word (w h : string) :
  rx_test [w] h = true ↔ match_word w h = Some EmptyString.
Proof.
  unfold rx_test. simpl. destruct (match_word w h) as [[|b t]|]; simpl; split; try done.
Qed.

(** A pattern of one word without white space tests a label the same, with
    or without the collapse of its white space. *)
Lemma rx_test_collapse (w u : string) :
  string_forall (λ a, negb (is_ws a)) w = true →
  rx_test [w] (trim (collapse_ws u)) = rx_test [w] (trim u).
Proof.
  intros Hw. rewrite trim_collapse. set (t := trim u).
  destruct (rx_test [w] t) eqn:Ht.
  - apply rx_test_word in Ht as Hm. apply (match_word_solid w t Hw) in Hm.
    unfold collapse_ws. by rewrite collapse_solid.
  - apply not_true_iff_false. intros Hc. apply rx_test_word in Hc as Hm.
    apply (match_word_solid w _ Hw), solid_of_collapse in Hm.
    unfold collapse_ws in Hc. rewrite collapse_solid in Hc by done. congruence.
Qed.

Lemma findCol_from_agree (k : Z) (hdr : row) (w : string) :
  string_forall (λ a, negb (is_ws a)) w = true →
  useDatabase.findCol_from k hdr [w] = findCol_from k hdr [w].
Proof.
  intros Hw. revert k. induction hdr as [|c hdr IH]; intros k; [done|].
  cbn [useDatabase.findCol_from findCol_from]. rewrite rx_test_collapse by done.
  by rewrite IH.
Qed.

(** *** The template names the hook offers, and the resolver *)

Lemma elem_of_SetFromStrings (l : list string) (x : string) :
  x ∈ useDatabase.SetFromStrings l ↔ x ∈ l.
Proof.
  induction l as [|y l IH]; simpl; [reflexivity|].
  rewrite !elem_of_cons, list_elem_of_filter, IH.
  destruct (decide (x = y)); naive_solver.
Qed.

Lemma NoDup_SetFromStrings (l : list string) : NoDup (useDatabase.SetFromStrings l).
Proof.
  induction l as [|y l IH]; simpl; constructor.
  - rewrite list_elem_of_filter. naive_solver.
  - by apply NoDup_filter.
Qed.

Lemma findCol_agree (hdr : row) :
  useDatabase.findCol hdr ["name"] = findCol hdr ["name"].
Proof. by apply findCol_from_agree. Qed.

Lemma elem_of_templates (tHead : row) (tRows : table) (name : string) :
  name ∈ useDatabase.templates (tHead :: tRows)
  ↔ name ≠ EmptyString
    ∧ ∃ r, r ∈ tRows
           ∧ name = trim (ToString (nullish (at_index r (findCol_or_first tHead ["name"]))
                                            (Str ""))).
Proof.
  unfold useDatabase.templates. cbn [hd tail]. rewrite findCol_agree.
  assert ((if negb (findCol tHead ["name"] =? -1)%Z then findCol tHead ["name"] else 0)
          = findCol_or_first tHead ["name"]) as ->.
  { unfold findCol_or_first. by destruct (findCol tHead ["name"] =? -1)%Z. }
  rewrite elem_of_SetFromStrings, list_elem_of_In, filter_In, in_map_iff.
  split.
  - intros [(r & <- & Hr) Hne]. split; [by intros Heq; rewrite Heq in Hne|].
    exists r. by rewrite list_elem_of_In.
  - intros [Hne (r & Hr & ->)]. split.
    + exists r. by rewrite <- list_elem_of_In.
    + by destruct (trim _).
Qed.

Lemma canon_trimmed_nonempty (x : string) :
  trim x ≠ EmptyString → canon (Str (trim x)) ≠ EmptyString.
Proof.
  intros Hne. rewrite canon_Str, trim_idem.
  pose proof (trimEnd_solid _ (trimStart_solid x)) as Hsolid. fold (trim x) in Hsolid.
  destruct (trim x) as [|a t]; [done|]. simpl in Hsolid.
  apply negb_true_iff in Hsolid. unfold collapse_ws. simpl. by rewrite Hsolid.
Qed.

Lemma canon_truthy (c : cell) :
  truthy c = true → canon (Str (trim (ToString c))) = canon c.
Proof.
  intros Hc. rewrite canon_Str, trim_idem. unfold canon, or_else. by rewrite Hc.
Qed.

Lemma find_all_false {A} (f : A → bool) (l : list A) :
  Forall (λ x, f x = false) l → List.find f l = None.
Proof. induction 1 as [|x l Hx _ IH]; simpl; [done|]. by rewrite Hx. Qed.

(** X18. The names the hook offers are the distinct non-empty trimmed
    strings of the name column, which is the one the resolver reads when a
    header is Name.  The name taken from a truthy cell of that column is then
    found by the resolver; when no header is Name the hook offers the first
    column, and the resolver finds none of the names offered. *)
Theorem offered_templates_resolve (tb : refTables)
    (tHead : row) (tRows : table) (vHead : row) (vRows : table)
    (cHead : row) (cRows : table) :
  templatesTable tb = Some (tHead :: tRows) →
  variablesTable tb = Some (vHead :: vRows) →
  clausesTable tb = Some (cHead :: cRows) →
  let iName := findCol_or_first tHead ["name"] in
  (∀ name, name ∈ useDatabase.templates (tHead :: tRows)
           ↔ name ≠ EmptyString
             ∧ ∃ r, r ∈ tRows
                    ∧ name = trim (ToString (nullish (at_index r iName) (Str ""))))
  ∧ NoDup (useDatabase.templates (tHead :: tRows))
  ∧ (findCol tHead ["name"] ≠ -1 →
     ∀ r, r ∈ tRows → truthy (at_index r iName) = true →
          debug (getTagsAndClausesByTemplateName tb
                   (Str (trim (ToString (at_index r iName)))))
          ≠ ["Template not found: " +:+ trim (ToString (at_index r iName))])
  ∧ (findCol tHead ["name"] = -1 →
     ∀ name, name ∈ useDatabase.templates (tHead :: tRows) →
             getTagsAndClausesByTemplateName tb (Str name)
             = {| tagsArray := []; clausesArray := [];
                  debug := ["Template not found: " +:+ name] |}).
Proof.
  intros Ht Hv Hc iName. split; [|split; [|split]].
  - intros name. apply elem_of_templates.
  - apply NoDup_SetFromStrings.
  - intros Hcol r Hr Htruthy.
    assert (iName = findCol tHead ["name"]) as HiName.
    { unfold iName, findCol_or_first.
      destruct (findCol tHead ["name"] =? -1)%Z eqn:Heq; [|done].
      apply Z.eqb_eq in Heq. done. }
    unfold getTagsAndClausesByTemplateName. rewrite Ht, Hv, Hc.
    destruct (List.find _ tRows) as [tRow|] eqn:Hfind.
    + destruct (parseList (at_index tRow (findCol tHead ["variable"; "array"])))
        as [|v varList]; [simpl; intros [=]|].
      destruct (foldl _ _ _) as [clauseIds missingVars]. simpl.
      intros Heq. apply (f_equal length) in Heq. rewrite !length_app in Heq.
      simpl in Heq. lia.
    + apply list_elem_of_In in Hr. pose proof (find_none _ _ Hfind r Hr) as Hno.
      apply bool_decide_eq_false in Hno. destruct Hno.
      rewrite <- HiName. by rewrite canon_truthy.
  - intros Hcol name Hname. apply elem_of_templates in Hname as [Hne (r & Hr & ->)].
    unfold getTagsAndClausesByTemplateName. rewrite Ht, Hv, Hc, Hcol.
    rewrite find_all_false; [done|].
    apply Forall_forall. intros r' _. apply bool_decide_eq_false_2.
    change (at_index r' (-1)) with Undefined.
    intros Heq. by apply (canon_trimmed_nonempty _ Hne).
Qed.

End EngineFacts.

(** ** The properties at the tables of the examples *)

Lemma negative_verdict_sticky_witness :
  let A := Some {[ Int 20 := 1 ]} in
  let A' := Some (<[Int 10 := 1]> {[ Int 20 := 1 ]}) in
  adds_positive A A'
  ∧ evaluateClauses (rt:=decimal) A (Some ex_clauses) !! Int 3 = Some (-1)
  ∧ evaluateClauses (rt:=decimal) A' (Some ex_clauses) !! Int 3 = Some (-1).
Proof.
  intros A A'.
  assert (adds_positive A A') as Hadd by (apply adds_positive_insert; by left).
  assert (evaluateClauses (rt:=decimal) A (Some ex_clauses) !! Int 3 = Some (-1))
    as HA by (vm_compute; reflexivity).
  split; [exact Hadd|]. split; [exact HA|].
  exact (negative_verdict_sticky (rt:=decimal) A A' (Some ex_clauses) (Int 3) Hadd HA).
Defined.

Lemma empty_lists_verdict_witness :
  Include_If_List_of (rt:=decimal) ex_clause_head ex_clause4 = []
  ∧ Exclude_If_List_of (rt:=decimal) ex_clause_head ex_clause4 = []
  ∧ Forall (λ r', PC_ID_of (rt:=decimal) ex_clause_head r'
                  ≠ PC_ID_of (rt:=decimal) ex_clause_head ex_clause4) []
  ∧ evaluateClauses (rt:=decimal) (Some {[ Int 10 := -1 ]})
      (Some (ex_clause_head :: [ex_clause1; ex_clause2; ex_clause3] ++ ex_clause4 :: []))
      !! PC_ID_of (rt:=decimal) ex_clause_head ex_clause4 = Some 1.
Proof.
  assert (Include_If_List_of (rt:=decimal) ex_clause_head ex_clause4 = []) as Hinc
    by reflexivity.
  assert (Exclude_If_List_of (rt:=decimal) ex_clause_head ex_clause4 = []) as Hexc
    by reflexivity.
  split; [exact Hinc|]. split; [exact Hexc|]. split; [constructor|].
  exact (empty_lists_verdict (rt:=decimal) _ ex_clause_head _ ex_clause4 []
           Hinc Hexc (Forall_nil_2 _)).
Defined.

Lemma evaluateClauses_verdict_witness :
  Forall (λ r', PC_ID_of (rt:=decimal) ex_clause_head r'
                ≠ PC_ID_of (rt:=decimal) ex_clause_head ex_clause1)
         [ex_clause2; ex_clause3; ex_clause4]
  ∧ evaluateClauses (rt:=decimal) (Some {[ Int 10 := 1 ]}) (Some ex_clauses)
      !! PC_ID_of (rt:=decimal) ex_clause_head ex_clause1
    = Some (spec_verdict (Some {[ Int 10 := 1 ]})
              (Include_If_List_of (rt:=decimal) ex_clause_head ex_clause1)
              (Exclude_If_List_of (rt:=decimal) ex_clause_head ex_clause1)).
Proof.
  assert (Forall (λ r', PC_ID_of (rt:=decimal) ex_clause_head r'
                        ≠ PC_ID_of (rt:=decimal) ex_clause_head ex_clause1)
                 [ex_clause2; ex_clause3; ex_clause4]) as Hlater
    by (repeat constructor; vm_compute; intros [=]).
  split; [exact Hlater|].
  exact (proj1 (evaluateClauses_verdict (rt:=decimal) _ ex_clause_head []
                  ex_clause1 _ Hlater)).
Defined.

(** The answers "Yes", " NO" and an answer of blanks, to two yes/no tags and
    a free-text tag, and an answer to a tag that is not in the table. *)
Example evaluateTagsBuildMode_example :
  let out := evaluateTagsBuildMode (rt:=decimal) (Some ex_answers) (Some ex_tags) in
  out !! Int 10 = Some 1 ∧ out !! Int 20 = Some (-1) ∧ out !! Int 30 = Some 0
  ∧ out !! Int 99 = None.
Proof. vm_compute. done. Qed.

Lemma evaluateTagsBuildMode_spec_witness :
  Forall (λ kv : string * cell,
            Number (rt:=decimal) (Str kv.1) ≠ Number (rt:=decimal) (Str "20"))
         [("30", Str "  "); ("99", Str "yes")]
  ∧ tag_row (rt:=decimal) ex_tag_head [ex_tag10; ex_tag20; ex_tag30]
      (Number (rt:=decimal) (Str "20")) = Some ex_tag20
  ∧ evaluateTagsBuildMode (rt:=decimal) (Some ex_answers) (Some ex_tags)
      !! Number (rt:=decimal) (Str "20")
    = Some (spec_truth (rt:=decimal) ex_tag_head ex_tag20 (Str " NO")).
Proof.
  assert (Forall (λ kv : string * cell,
                    Number (rt:=decimal) (Str kv.1) ≠ Number (rt:=decimal) (Str "20"))
                 [("30", Str "  "); ("99", Str "yes")]) as Hlater
    by (repeat constructor; vm_compute; intros [=]).
  assert (tag_row (rt:=decimal) ex_tag_head [ex_tag10; ex_tag20; ex_tag30]
            (Number (rt:=decimal) (Str "20")) = Some ex_tag20) as Hrow
    by (vm_compute; reflexivity).
  split; [exact Hlater|]. split; [exact Hrow|].
  exact (proj2 (evaluateTagsBuildMode_spec (rt:=decimal) (Some ex_answers) (Some ex_tags))
           ex_tag_head [ex_tag10; ex_tag20; ex_tag30] [("10", Str "Yes")] "20" (Str " NO")
           [("30", Str "  "); ("99", Str "yes")] ex_tag20 eq_refl eq_refl Hlater Hrow).
Defined.

(** ** The resolver *)

(** C2 (amended). When the Template, Variable and Clause tables each have a
    header row and the canonical template name is the canonical name of a
    Template row, [clausesArray] is strictly ascending (so without
    duplicates) and holds exactly the numeric Associated_Clause_Array
    identifiers of the Variable rows of type "clause" that match a name of
    the template's Variable_Array; [tagsArray] is strictly ascending and
    holds exactly the numeric Tags_Array identifiers of the resolved clauses
    that have a row in the Clause table; both arrays are left unchanged by
    removing duplicates and sorting once more (and the result, a function of
    the inputs, is the same for the same inputs).  When one of the three
    tables is absent or has no row at all, whatever the template name, both
    arrays are empty and the one diagnostic is "One or more tables are
    empty.".  In Scenario A the resolved clauses are 1, 2, 3. *)
Theorem resolver_spec :
  (∀ (rt : Runtime) (tb : refTables) (name : cell)
     (tHead : row) (tRows : table) (vHead : row) (vRows : table)
     (cHead : row) (cRows : table) (tRow : row),
     templatesTable tb = Some (tHead :: tRows) →
     variablesTable tb = Some (vHead :: vRows) →
     clausesTable tb = Some (cHead :: cRows) →
     template_of tHead tRows name = Some tRow →
     let res := getTagsAndClausesByTemplateName tb name in
     StronglySorted num_lt (clausesArray res)
     ∧ (∀ c, c ∈ clausesArray res ↔ clause_of_template tHead tRow vHead vRows c)
     ∧ StronglySorted num_lt (tagsArray res)
     ∧ (∀ t, t ∈ tagsArray res ↔ tag_of_clauses cHead cRows (clausesArray res) t)
     ∧ sort ascending (uniqNums (map Num (clausesArray res))) = clausesArray res
     ∧ sort ascending (uniqNums (map Num (tagsArray res))) = tagsArray res)
  ∧ (∀ (rt : Runtime) (tb : refTables) (name : cell),
       default [] (templatesTable tb) = []
       ∨ default [] (variablesTable tb) = []
       ∨ default [] (clausesTable tb) = [] →
       getTagsAndClausesByTemplateName tb name
       = {| tagsArray := []; clausesArray := [];
            debug := ["One or more tables are empty."] |})
  ∧ clausesArray (getTagsAndClausesByTemplateName (rt:=decimal) scenario_A (Str "Lease"))
    = [Int 1; Int 2; Int 3].
Proof.
  split; [|split; [|by vm_compute]].
  - intros rt tb name tHead tRows vHead vRows cHead cRows tRow Ht Hv Hc Hfind res.
    destruct (resolver_lists tb name _ _ _ _ _ _ _ Ht Hv Hc Hfind) as (? & ? & ? & ?).
    split; [apply clausesArray_sorted|]. split; [done|].
    split; [apply tagsArray_sorted|]. done.
  - intros rt tb name Hempty. unfold getTagsAndClausesByTemplateName.
    destruct (templatesTable tb) as [[|tHead tRows]|]; [done| |done].
    destruct (variablesTable tb) as [[|vHead vRows]|]; [done| |done].
    destruct (clausesTable tb) as [[|cHead cRows]|]; [done| |done].
    by destruct Hempty as [Hempty|[Hempty|Hempty]].
Qed.

Lemma resolver_spec_witness :
  template_of (rt:=decimal) ex_template_head [ex_lease] (Str " lease ") = Some ex_lease
  ∧ StronglySorted num_lt
      (clausesArray (getTagsAndClausesByTemplateName (rt:=decimal) scenario_A (Str " lease ")))
  ∧ tagsArray (getTagsAndClausesByTemplateName (rt:=decimal) scenario_A (Str " lease "))
    = [Int 10; Int 20; Int 99]
  ∧ (default [] (templatesTable scenario_A_no_clause_table) = []
     ∨ default [] (variablesTable scenario_A_no_clause_table) = []
     ∨ default [] (clausesTable scenario_A_no_clause_table) = [])
  ∧ getTagsAndClausesByTemplateName (rt:=decimal) scenario_A_no_clause_table (Str " lease ")
    = {| tagsArray := []; clausesArray := [];
         debug := ["One or more tables are empty."] |}.
Proof.
  assert (template_of (rt:=decimal) ex_template_head [ex_lease] (Str " lease ")
          = Some ex_lease) as Hfind by reflexivity.
  assert (default [] (templatesTable scenario_A_no_clause_table) = []
          ∨ default [] (variablesTable scenario_A_no_clause_table) = []
          ∨ default [] (clausesTable scenario_A_no_clause_table) = []) as Hempty
    by (right; right; reflexivity).
  split; [exact Hfind|]. split; [|split; [by vm_compute|split; [exact Hempty|]]].
  - exact (proj1 (proj1 resolver_spec decimal scenario_A (Str " lease ")
                    ex_template_head [ex_lease] ex_variable_head [ex_tenant; ex_landlord]
                    ex_clause_head [ex_clause1; ex_clause2; ex_clause3; ex_clause4] ex_lease
                    eq_refl eq_refl eq_refl Hfind)).
  - exact (proj1 (proj2 resolver_spec) decimal scenario_A_no_clause_table (Str " lease ")
             Hempty).
Defined.

(** With an empty Clause table the sentence of the specification fails: the
    template "Lease" is found and clause 1 is bound to its variable Tenant,
    yet no clause is resolved. *)
Lemma resolver_no_clause_table_counterexample :
  template_of (rt:=decimal) ex_template_head [ex_lease] (Str "Lease") = Some ex_lease
  ∧ clause_of_template (rt:=decimal) ex_template_head ex_lease ex_variable_head
      [ex_tenant; ex_landlord] (Int 1)
  ∧ getTagsAndClausesByTemplateName (rt:=decimal) scenario_A_no_clause_table (Str "Lease")
    = {| tagsArray := []; clausesArray := [];
         debug := ["One or more tables are empty."] |}.
Proof.
  split; [reflexivity|]. split; [|reflexivity].
  split; [reflexivity|]. exists "Tenant", ex_tenant, "1".
  split; [by left|]. split; [by left|]. split; [reflexivity|]. split; [reflexivity|].
  split; [by left|reflexivity].
Qed.

Lemma template_not_found_witness :
  ¬ template_present (rt:=decimal) scenario_A (Str "Deed")
  ∧ ∃ d ds, getTagsAndClausesByTemplateName (rt:=decimal) scenario_A (Str "Deed")
            = {| tagsArray := []; clausesArray := []; debug := d :: ds |}.
Proof.
  assert (¬ template_present (rt:=decimal) scenario_A (Str "Deed")) as Habsent.
  { unfold template_present. simpl. rewrite Exists_cons, Exists_nil.
    intros [Hname|[]]. vm_compute in Hname. discriminate Hname. }
  split; [exact Habsent|].
  exact (template_not_found (rt:=decimal) scenario_A (Str "Deed") Habsent).
Defined.

Example template_not_found_example :
  getTagsAndClausesByTemplateName (rt:=decimal) scenario_A (Str "Deed")
  = {| tagsArray := []; clausesArray := []; debug := ["Template not found: Deed"] |}
  ∧ getTagsAndClausesByTemplateName (rt:=decimal)
      {| templatesTable := None; variablesTable := None; clausesTable := None |} (Str "Deed")
    = {| tagsArray := []; clausesArray := []; debug := ["One or more tables are empty."] |}.
Proof. split; reflexivity. Qed.

(** ** The question scheduler *)

Lemma completion_ratio_witness :
  let A := Some (<[Int 10 := 1]> (<[Int 20 := 0]> (∅ : gmap num Z))) in
  NoDup [Int 10; Int 20; Int 99]
  ∧ (∀ t v, prop A t = Some v → v = 1 ∨ v = -1 → t ∈ [Int 10; Int 20; Int 99])
  ∧ ratioCompletedTags
      (returnNextTagQuestions (rt:=decimal) None None None A
         (Some [Int 10; Int 20; Int 99]) None)
    = spec_ratio A [Int 10; Int 20; Int 99].
Proof.
  intros A.
  assert (NoDup [Int 10; Int 20; Int 99]) as Hnodup.
  { apply (bool_decide_unpack (NoDup _)). vm_compute. exact I. }
  assert (∀ t v, prop A t = Some v → v = 1 ∨ v = -1 → t ∈ [Int 10; Int 20; Int 99])
    as Hin.
  { intros t v Hv Hd.
    change ((<[Int 10 := 1]> (<[Int 20 := 0]> (∅ : gmap num Z))) !! t = Some v) in Hv.
    destruct (decide (t = Int 10)) as [-> | Hne]; [by left|].
    rewrite lookup_insert_ne in Hv by done.
    destruct (decide (t = Int 20)) as [-> | Hne']; [right; by left|].
    by rewrite lookup_insert_ne in Hv by done. }
  split; [exact Hnodup|]. split; [exact Hin|].
  exact (proj2 (completion_ratio (rt:=decimal) None None None A
                  (Some [Int 10; Int 20; Int 99]) None) Hnodup Hin).
Defined.

(** The ratio of the specification is not the one returned when the mapping
    gives a value to a tag outside the universe: tag 2 is answered, the
    universe is tag 1 alone, and the ratio is 1 where no tag of the universe
    is answered. *)
Lemma completion_ratio_counterexample :
  ratioCompletedTags
    (returnNextTagQuestions (rt:=decimal) None None None (Some {[ Int 2 := 1 ]})
       (Some [Int 1]) None)
  = length_ratio 1 1
  ∧ spec_ratio (Some {[ Int 2 := 1 ]}) [Int 1] = length_ratio 0 1
  ∧ length_ratio 1 1 ≠ length_ratio 0 1.
Proof.
  split; [by vm_compute|]. split; [by vm_compute|].
  vm_compute. intros [=].
Qed.

Lemma scheduler_invariant_witness :
  let res :=
    returnNextTagQuestions (rt:=decimal) (Some ex_verdicts) (Some ex_clauses)
      (Some ex_universe) None (Some [Int 10; Int 20; Int 99]) (Some ex_info) in
  status res = "ask"
  ∧ Forall (λ q, priority_of (rt:=decimal) q ≠ NaN) ex_info
  ∧ StronglySorted (question_le (rt:=decimal)) (nextQuestions res)
  ∧ id_of (rt:=decimal) <$> nextQuestions res = [Int 10; Int 20; Int 99]
  ∧ priority_of (rt:=decimal) <$> nextQuestions res = [Int 2; PosInf; PosInf].
Proof.
  intros res.
  assert (status res = "ask") as Hask by (by vm_compute).
  assert (Forall (λ q, priority_of (rt:=decimal) q ≠ NaN) ex_info) as Hinfo
    by (repeat constructor; by vm_compute).
  split; [exact Hask|]. split; [exact Hinfo|]. split; [|split; by vm_compute].
  destruct (proj1 (scheduler_invariant (rt:=decimal) (Some ex_verdicts) (Some ex_clauses)
                     (Some ex_universe) None (Some [Int 10; Int 20; Int 99])
                     (Some ex_info))
              ex_clause_head [ex_clause1; ex_clause2; ex_clause3; ex_clause4] eq_refl)
    as [_ Hquestions].
  exact (proj2 (proj2 (proj2 (proj2 (Hquestions Hask)))) Hinfo).
Defined.

(** Without a clause table the invariant of the specification fails: clause
    1 is unresolved, no tag is pending, and the status is "ask" with no
    question. *)
Lemma scheduler_no_table_counterexample :
  let res :=
    returnNextTagQuestions (rt:=decimal) (Some {[ Int 1 := 0 ]}) (Some [])
      (Some [Int 1]) None (Some [Int 10]) None in
  unresolved (Some {[ Int 1 := 0 ]}) (Some [Int 1]) = [Int 1]
  ∧ (∀ t, ¬ is_pending (rt:=decimal) (Some []) (Some {[ Int 1 := 0 ]}) (Some [Int 1]) None t)
  ∧ status res = "ask"
  ∧ nextQuestions res = [].
Proof.
  intros res. split; [by vm_compute|]. split; [by intros t []|].
  split; by vm_compute.
Qed.


(** ** The scenarios of the specification *)

(** Scenario B: clause 1 needs tag 10; the verdict is 0 while the tag is
    unanswered and 1 once it is answered "Yes".  Scenario C: clause 2 is
    vetoed by tag 20, answered "No", and its verdict is 1.  Scenario E:
    clause 3 also needs tag 99, which has no row in the tag table, and stays
    at 0 even when an answer to 99 is offered. *)
Example scenarios_B_C_E :
  let unanswered := evaluateTagsBuildMode (rt:=decimal) (Some []) (Some ex_tags) in
  let answered :=
    evaluateTagsBuildMode (rt:=decimal)
      (Some [("10", Str "Yes"); ("20", Str "No"); ("99", Str "Yes")]) (Some ex_tags) in
  evaluateClauses (rt:=decimal) (Some unanswered) (Some ex_clauses) !! Int 1 = Some 0
  ∧ answered !! Int 10 = Some 1
  ∧ evaluateClauses (rt:=decimal) (Some answered) (Some ex_clauses) !! Int 1 = Some 1
  ∧ answered !! Int 20 = Some (-1)
  ∧ evaluateClauses (rt:=decimal) (Some answered) (Some ex_clauses) !! Int 2 = Some 1
  ∧ answered !! Int 99 = None
  ∧ evaluateClauses (rt:=decimal) (Some answered) (Some ex_clauses) !! Int 3 = Some 0.
Proof. by vm_compute. Qed.

(** Scenario D: the clauses 1, 2 and 4 are all resolved, so the status is
    "done", although tag 30 of the universe is unanswered and the ratio is
    2/3. *)
Example scenario_D :
  let answered :=
    evaluateTagsBuildMode (rt:=decimal) (Some [("10", Str "Yes"); ("20", Str "No")])
      (Some ex_tags) in
  let verdicts := evaluateClauses (rt:=decimal) (Some answered) (Some ex_clauses) in
  let res :=
    returnNextTagQuestions (rt:=decimal) (Some verdicts) (Some ex_clauses)
      (Some [Int 1; Int 2; Int 4]) (Some answered) (Some [Int 10; Int 20; Int 30])
      (Some ex_info) in
  status res = "done" ∧ nextQuestions res = []
  ∧ ratioCompletedTags res = length_ratio 2 3.
Proof. by vm_compute. Qed.

(** The rows of the clauses 1 and 3, in the order of the table. *)
Example filterTableByIds_example :
  filterTableByIds (rt:=decimal) (Some ex_clauses) (Some [Str "3"; Num (Int 1); Str "7"])
  = [ex_clause_head; ex_clause1; ex_clause3].
Proof. by vm_compute. Qed.


(** ** Further properties: instances *)

(** Clause 1 is included once tag 10 is true; answering tag 20, which had
    the value 0, leaves it included. *)
Lemma resolved_verdict_final_witness :
  let A := Some (<[Int 20 := 0]> (<[Int 10 := 1]> (∅ : gmap num Z))) in
  let A' := Some (<[Int 20 := -1]> (<[Int 10 := 1]> (∅ : gmap num Z))) in
  answers_more A A'
  ∧ evaluateClauses (rt:=decimal) A (Some ex_clauses) !! Int 1 = Some 1
  ∧ 1 ≠ 0
  ∧ evaluateClauses (rt:=decimal) A' (Some ex_clauses) !! Int 1 = Some 1.
Proof.
  intros A A'.
  assert (answers_more A A') as Hmore.
  { intros t. unfold prop, A, A'. simpl. destruct (decide (t = Int 20)) as [->|Hne].
    - right. right. by vm_compute.
    - left. by rewrite !(lookup_insert_ne _ (Int 20) t). }
  assert (evaluateClauses (rt:=decimal) A (Some ex_clauses) !! Int 1 = Some 1) as Hone
    by (by vm_compute).
  assert (1 ≠ 0) as Hnz by lia.
  split; [exact Hmore|]. split; [exact Hone|]. split; [exact Hnz|].
  exact (resolved_verdict_final (rt:=decimal) A A' (Some ex_clauses) (Int 1) 1
           Hmore Hone Hnz).
Defined.

(** The example Clause table filtered by the identifiers 1 and 3. *)
Lemma evaluateClauses_filterTableByIds_witness :
  let rows := [ex_clause1; ex_clause2; ex_clause3; ex_clause4] in
  let ids := [Num (Int 1); Num (Int 3)] in
  findCol_or_first (rt:=decimal) ex_clause_head ["pc"; "id"] = 0
  ∧ evaluateClauses (rt:=decimal) None
      (Some (filterTableByIds (rt:=decimal) (Some (ex_clause_head :: rows)) (Some ids)))
      !! Int 3
    = if decide (Int 3 ∈ map (Number (rt:=decimal)) ids)
      then evaluateClauses (rt:=decimal) None (Some (ex_clause_head :: rows)) !! Int 3
      else None.
Proof.
  intros rows ids.
  assert (findCol_or_first (rt:=decimal) ex_clause_head ["pc"; "id"] = 0) as Hcol
    by (by vm_compute).
  split; [exact Hcol|].
  exact (evaluateClauses_filterTableByIds (rt:=decimal) None ex_clause_head rows ids
           (Int 3) Hcol).
Defined.

(** A clause that excludes tag 30, a tag of category Text. *)
Lemma exclude_tag_not_bool_never_included_witness :
  let r := [Num (Int 5); Str ""; Str "30"; Str "30"] in
  clause_row (rt:=decimal) ex_clause_head [r] (Int 5) = Some r
  ∧ Int 30 ∈ Exclude_If_List_of (rt:=decimal) ex_clause_head r
  ∧ ¬ bool_tag (rt:=decimal) (Some ex_tags) (Int 30)
  ∧ evaluateClauses (rt:=decimal)
      (Some (evaluateTagsBuildMode (rt:=decimal) (Some ex_answers) (Some ex_tags)))
      (Some [ex_clause_head; r]) !! Int 5
    ≠ Some 1.
Proof.
  intros r.
  assert (clause_row (rt:=decimal) ex_clause_head [r] (Int 5) = Some r) as Hrow
    by (by vm_compute).
  assert (Int 30 ∈ Exclude_If_List_of (rt:=decimal) ex_clause_head r) as Hexc.
  { apply (bool_decide_unpack _). by vm_compute. }
  assert (¬ bool_tag (rt:=decimal) (Some ex_tags) (Int 30)) as Hnot.
  { intros (thead & trows & tr & Htags & Htr & Hcat).
    injection Htags as <- <-. vm_compute in Htr. injection Htr as <-.
    vm_compute in Hcat. discriminate Hcat. }
  split; [exact Hrow|]. split; [exact Hexc|]. split; [exact Hnot|].
  exact (exclude_tag_not_bool_never_included (rt:=decimal) (Some ex_answers)
           (Some ex_tags) ex_clause_head [r] (Int 5) r (Int 30) Hrow Hexc Hnot).
Defined.

(** The template Lease of the example, with the example answers. *)
Lemma recompute_ratio_witness :
  let st' := recompute (rt:=decimal) (Some ex_tables) "Lease" ex_answers ex_initial_state in
  nonempty "Lease" = true
  ∧ (∀ thead trows, tagsTable ex_tables = Some (thead :: trows) →
                    findCol_or_first (rt:=decimal) thead ["tag"; "id"] = 0)
  ∧ st_ratioCompleted st'
    = spec_ratio
        (Some (evaluateTagsBuildMode (rt:=decimal) (Some ex_answers)
                 (Some (st_filteredTagsTable st'))))
        (st_tagsArray st').
Proof.
  intros st'.
  assert (∀ thead trows, tagsTable ex_tables = Some (thead :: trows) →
                         findCol_or_first (rt:=decimal) thead ["tag"; "id"] = 0) as Hcol.
  { intros thead trows Htags. injection Htags as <- <-. by vm_compute. }
  split; [reflexivity|]. split; [exact Hcol|].
  exact (recompute_ratio (rt:=decimal) ex_tables "Lease" ex_answers ex_initial_state
           eq_refl Hcol).
Defined.

Lemma recompute_questions_sorted_witness :
  let st' := recompute (rt:=decimal) (Some ex_tables) "Lease" ex_answers ex_initial_state in
  nonempty "Lease" = true
  ∧ (∀ thead trows, tagsTable ex_tables = Some (thead :: trows) →
                    priority_cells_not_strings (rt:=decimal) thead trows)
  ∧ StronglySorted (question_le (rt:=decimal)) (st_nextQuestions st')
  ∧ NoDup (id_of (rt:=decimal) <$> st_nextQuestions st').
Proof.
  intros st'.
  assert (∀ thead trows, tagsTable ex_tables = Some (thead :: trows) →
                         priority_cells_not_strings (rt:=decimal) thead trows) as Hcells.
  { intros thead trows Htags. injection Htags as <- <-.
    repeat constructor; intros s Hs; vm_compute in Hs; discriminate Hs. }
  split; [reflexivity|]. split; [exact Hcells|].
  exact (recompute_questions_sorted (rt:=decimal) ex_tables "Lease" ex_answers
           ex_initial_state eq_refl Hcells).
Defined.

(** The example Document table has a header Name and the one template
    Lease: the hook offers it and the resolver finds it. *)
Lemma offered_templates_resolve_witness :
  templatesTable scenario_A = Some [ex_template_head; ex_lease]
  ∧ variablesTable scenario_A = Some [ex_variable_head; ex_tenant; ex_landlord]
  ∧ clausesTable scenario_A
    = Some [ex_clause_head; ex_clause1; ex_clause2; ex_clause3; ex_clause4]
  ∧ findCol (rt:=decimal) ex_template_head ["name"] ≠ -1
  ∧ "Lease" ∈ useDatabase.templates (rt:=decimal) [ex_template_head; ex_lease]
  ∧ debug (getTagsAndClausesByTemplateName (rt:=decimal) scenario_A (Str "Lease"))
    ≠ ["Template not found: Lease"].
Proof.
  assert (findCol (rt:=decimal) ex_template_head ["name"] ≠ -1) as Hcol
    by (by vm_compute).
  destruct (offered_templates_resolve (rt:=decimal) scenario_A
              ex_template_head [ex_lease] ex_variable_head [ex_tenant; ex_landlord]
              ex_clause_head [ex_clause1; ex_clause2; ex_clause3; ex_clause4]
              eq_refl eq_refl eq_refl)
    as (Hoffered & _ & Hfound & _).
  split; [reflexivity|]. split; [reflexivity|]. split; [reflexivity|].
  split; [exact Hcol|]. split.
  - apply Hoffered. split; [done|]. exists ex_lease. split; [apply list_elem_of_here|].
    by vm_compute.
  - exact (Hfound Hcol ex_lease (list_elem_of_here _ _) eq_refl).
Defined.

(** A Document table without a header Name: the hook offers the first
    column, Lease, and the resolver does not find it. *)
Example offered_template_not_found :
  let tb := {| templatesTable := Some [[Str "Title"; Str "Variable_Array"]; ex_lease];
               variablesTable := variablesTable scenario_A;
               clausesTable := clausesTable scenario_A |} in
  useDatabase.templates (rt:=decimal) [[Str "Title"; Str "Variable_Array"]; ex_lease]
  = ["Lease"]
  ∧ getTagsAndClausesByTemplateName (rt:=decimal) tb (Str "Lease")
    = {| tagsArray := []; clausesArray := []; debug := ["Template not found: Lease"] |}.
Proof. split; by vm_compute. Qed.
